(** * Connection service: credential parsing, the connection store and the
      OAuth2 refresh coordinator

    A shallow embedding of [ConnectionService] (connection.service.ts):
    [parseRawCredentials], the store operations on [_nango_connections]
    ([upsertConnection], [importOAuthConnection], [importApiAuthConnection],
    [getConnection], [updateConnection], [deleteConnection]) and
    [getConnectionCredentials] / [refreshOauth2CredentialsIfNeeded].

    The two asynchronous functions of the refresh path are modelled as
    coroutines: every [await] of the source is a suspension point, the code
    between two suspension points is one atomic step (the JavaScript event
    loop runs it to completion), and a schedule decides which suspended task
    is resumed next and with which answer of the outside world. *)

From Stdlib Require Import ZArith Lia Ascii String DecimalString DecimalPos DecimalZ.
From stdpp Require Import base option list strings gmap.

Local Open Scope string_scope.
Local Open Scope list_scope.
Local Open Scope Z_scope.

(** ** JavaScript values *)

(** A [Date]: milliseconds since the epoch, or the Invalid Date that
    [new Date(NaN)] builds. *)
Inductive JsDate :=
| ValidDate (ms : Z)
| InvalidDate.

(** The scalar values a raw credential object holds.  Numbers are the
    integers (a token response carries no fractions). *)
Inductive JsValue :=
| JUndefined
| JNull
| JBool (b : bool)
| JNum (n : Z)
| JStr (s : string)
| JDate (d : JsDate).

(** [Record<string, any>]. *)
Abbreviation RawCreds := (gmap string JsValue).

(** [rawCreds[k]]: a missing key reads as [undefined]. *)
Definition prop (raw : RawCreds) (k : string) : JsValue :=
  default JUndefined (raw !! k).

(** ToBoolean. *)
Definition truthy (v : JsValue) : bool :=
  match v with
  | JUndefined | JNull => false
  | JBool b => b
  | JNum n => negb (n =? 0)
  | JStr s => negb (String.eqb s "")
  | JDate _ => true
  end.

(** *** [Number.parseInt(v, 10)] *)

Definition is_js_space (a : ascii) : bool :=
  let n := Ascii.nat_of_ascii a in
  ((n =? 32) || (n =? 9) || (n =? 10) || (n =? 11) || (n =? 12) || (n =? 13))%nat.

Definition digit_of (a : ascii) : option Z :=
  let n := Z.of_nat (Ascii.nat_of_ascii a) in
  if (48 <=? n) && (n <=? 57) then Some (n - 48) else None.

Fixpoint skip_spaces (s : string) : string :=
  match s with
  | String a s' => if is_js_space a then skip_spaces s' else s
  | EmptyString => s
  end.

(** The longest prefix of decimal digits, read left to right onto [acc]. *)
Fixpoint read_digits (s : string) (acc : Z) : Z :=
  match s with
  | String a s' =>
      match digit_of a with
      | Some d => read_digits s' (10 * acc + d)
      | None => acc
      end
  | EmptyString => acc
  end.

Definition starts_with_digit (s : string) : bool :=
  match s with
  | String a _ => bool_decide (is_Some (digit_of a))
  | EmptyString => false
  end.

Definition parse_unsigned (s : string) : option Z :=
  if starts_with_digit s then Some (read_digits s 0) else None.

(** [None] is NaN. *)
Definition parseInt_string (s : string) : option Z :=
  match skip_spaces s with
  | String "-" s' => Z.opp <$> parse_unsigned s'
  | String "+" s' => parse_unsigned s'
  | s' => parse_unsigned s'
  end.

(** A non-string argument is first converted with ToString: an integer
    prints as its decimal digits, everything else as a word that starts
    with a letter. *)
Definition Number_parseInt (v : JsValue) : option Z :=
  match v with
  | JStr s => parseInt_string s
  | JNum n => Some n
  | _ => None
  end.

(** [new Date(Date.now() + n * 1000)] with [n] the result of parseInt. *)
Definition date_after (now : Z) (n : option Z) : JsDate :=
  match n with
  | Some k => ValidDate (now + k * 1000)
  | None => InvalidDate
  end.

(** ** Errors and results *)

(** What a function throws: a [NangoError] built from a type string and an
    optional payload, or a failure of an external call. *)
Inductive Exn :=
| NangoError (type : string) (payload : list (string * JsValue))
| ExternalError (msg : string).

Inductive Outcome (A : Type) :=
| Returned (a : A)
| Thrown (e : Exn).
Arguments Returned {A} a.
Arguments Thrown {A} e.

(** ** Credentials and connections (models/Auth.ts, models/Connection.ts) *)

Inductive AuthModes := OAuth1 | OAuth2 | Basic | ApiKey.

Record OAuth2Credentials := {
  access_token : JsValue;
  refresh_token : JsValue;
  expires_at : option JsDate;
  raw : RawCreds
}.

Record OAuth1Credentials := {
  oauth_token : JsValue;
  oauth_token_secret : JsValue;
  raw1 : RawCreds
}.

Inductive AuthCredentials :=
| CredOAuth2 (c : OAuth2Credentials)
| CredOAuth1 (c : OAuth1Credentials)
| CredApiKey (apiKey : string)
| CredBasic (username password : string).

(** [credentials.type]. *)
Definition cred_type (c : AuthCredentials) : AuthModes :=
  match c with
  | CredOAuth2 _ => OAuth2
  | CredOAuth1 _ => OAuth1
  | CredApiKey _ => ApiKey
  | CredBasic _ _ => Basic
  end.

(** Field reads through the cast [credentials as OAuth2Credentials]: the
    cast does nothing at run time, a field the object lacks is
    [undefined]. *)
Definition cred_refresh_token (c : AuthCredentials) : JsValue :=
  match c with CredOAuth2 o => refresh_token o | _ => JUndefined end.

Definition cred_expires_at (c : AuthCredentials) : option JsDate :=
  match c with CredOAuth2 o => expires_at o | _ => None end.

Abbreviation JsonMap := (gmap string string).

Record Connection := {
  id : Z;
  connection_id : string;
  provider_config_key : string;
  environment_id : Z;
  credentials : AuthCredentials;
  connection_config : option JsonMap;
  metadata : option JsonMap
}.

Definition with_credentials (c : Connection) (cr : AuthCredentials) : Connection :=
  {| id := id c; connection_id := connection_id c;
     provider_config_key := provider_config_key c;
     environment_id := environment_id c; credentials := cr;
     connection_config := connection_config c; metadata := metadata c |}.

(** ** Collaborators whose code is outside this service *)

(** The helpers of utils.ts, error.ts, environment.service.ts and
    provider.client.ts that the service calls: they are parameters of the
    development. *)
Class Collaborators := {
  (** utils.ts: parses a stored or raw expiry into an absolute instant. *)
  parseTokenExpirationDate : JsValue -> JsDate;
  (** [JSON.stringify(rawCreds, undefined, 2)]. *)
  JSON_stringify : RawCreds -> string;
  (** environment.service.ts: the name of an environment, or null. *)
  getEnvironmentName : Z -> JsValue;
  (** provider.client.ts, by provider name. *)
  shouldIntrospectToken : string -> bool;
  shouldUseProviderClient : string -> bool
}.

(** Modelled from the spec: [isTokenExpired] of utils.ts, whose code is not
    in the repository sources.  A token is stale when
    [now + buffer >= expires_at], the buffer being in seconds; an Invalid
    Date compares false with everything. *)
Definition isTokenExpired (expireDate : JsDate) (bufferInSeconds : Z) (now : Z) : bool :=
  match expireDate with
  | ValidDate e => e <=? now + bufferInSeconds * 1000
  | InvalidDate => false
  end.

(** ** parseRawCredentials *)

Definition incomplete_raw_credentials : Exn :=
  NangoError "incomplete_raw_credentials" [].

Section Parser.
Context `{Collaborators}.

Definition unknown_credentials_type (rawCreds : RawCreds) : Exn :=
  NangoError (String.append "Cannot parse credentials, unknown credentials type: "
                            (JSON_stringify rawCreds)) [].

(** [now] is the reading of [Date.now()]. *)
Definition parseRawCredentials (now : Z) (rawCreds : RawCreds) (authMode : AuthModes)
  : Outcome AuthCredentials :=
  match authMode with
  | OAuth2 =>
      if negb (truthy (prop rawCreds "access_token")) then
        Thrown incomplete_raw_credentials
      else
        let expiresAt :=
          if truthy (prop rawCreds "expires_at") then
            Some (parseTokenExpirationDate (prop rawCreds "expires_at"))
          else if truthy (prop rawCreds "expires_in") then
            Some (date_after now (Number_parseInt (prop rawCreds "expires_in")))
          else None in
        Returned (CredOAuth2 {|
          access_token := prop rawCreds "access_token";
          refresh_token := prop rawCreds "refresh_token";
          expires_at := expiresAt;
          raw := rawCreds |})
  | OAuth1 =>
      if negb (truthy (prop rawCreds "oauth_token"))
         || negb (truthy (prop rawCreds "oauth_token_secret")) then
        Thrown incomplete_raw_credentials
      else
        Returned (CredOAuth1 {|
          oauth_token := prop rawCreds "oauth_token";
          oauth_token_secret := prop rawCreds "oauth_token_secret";
          raw1 := rawCreds |})
  | _ => Thrown (unknown_credentials_type rawCreds)
  end.
End Parser.

(** A sample instance of the collaborators, for running the model on
    concrete inputs: a Date is kept, a number is a UNIX time in seconds. *)
Definition sample_parse_date (v : JsValue) : JsDate :=
  match v with
  | JDate d => d
  | JNum n => ValidDate (n * 1000)
  | _ => InvalidDate
  end.

Definition sample_collaborators : Collaborators := {|
  parseTokenExpirationDate := sample_parse_date;
  JSON_stringify := fun _ => "{...}";
  getEnvironmentName := fun _ => JStr "dev";
  shouldIntrospectToken := fun p => String.eqb p "salesforce";
  shouldUseProviderClient := fun p => String.eqb p "braintree"
|}.

(** ** The connection store: table [_nango_connections] *)

(** Modelled from the spec: [encryptionManager] (utils/encryption.manager.ts,
    whose code is not in the repository sources) in the plaintext mode of the codec
    contract, where [encryptConnection] and [decryptConnection] are the
    identity: a row is the connection it stores. *)
Definition encryptConnection (c : Connection) : Connection := c.
Definition decryptConnection (c : Connection) : Connection := c.

(** The table and its serial [id] column. *)
Record Db := {
  rows : list Connection;
  next_id : Z
}.

(** [.where({ connection_id, provider_config_key, environment_id })]. *)
Definition row_matches (cid pck : string) (env : Z) (r : Connection) : bool :=
  String.eqb (connection_id r) cid && String.eqb (provider_config_key r) pck
  && (environment_id r =? env).

Definition select_where (cid pck : string) (env : Z) (d : Db) : list Connection :=
  filter (fun r => row_matches cid pck env r = true) (rows d).

(** Calls to the collaborators and writes to the table, in the order the
    service issues them. *)
Inductive Effect :=
| EffTrack (event : string) (accountId : Z)
| EffSyncInitiate (row_id : Z)
| EffCancelSchedule (c : Connection)
| EffDeleteRows (cid pck : string) (env : Z)
| EffInsert (c : Connection)
| EffMerge (c : Connection).

(** What a store operation yields: its result, the table afterwards and
    the effects it had. *)
Record Ran (A : Type) := {
  result : Outcome A;
  db_after : Db;
  effects : list Effect
}.
Arguments result {A} r.
Arguments db_after {A} r.
Arguments effects {A} r.

(** [.insert(row, ['id']).onConflict([provider_config_key, connection_id,
    environment_id]).merge()]: a row with the same triple takes the
    inserted columns through [merge_into] and keeps its [id]; otherwise the
    row is appended under the next serial id.  Returns the ids written. *)
Definition insert_or_merge (row : Connection) (merge_into : Connection -> Connection)
    (d : Db) : list Z * Db * list Effect :=
  let cid := connection_id row in
  let pck := provider_config_key row in
  let env := environment_id row in
  match select_where cid pck env d with
  | [] =>
      let fresh := {| id := next_id d; connection_id := cid;
                      provider_config_key := pck; environment_id := env;
                      credentials := credentials row;
                      connection_config := connection_config row;
                      metadata := metadata row |} in
      ([next_id d],
       {| rows := rows d ++ [fresh]; next_id := next_id d + 1 |},
       [EffInsert fresh])
  | hit =>
      (id <$> hit,
       {| rows := (fun r => if row_matches cid pck env r then merge_into r else r) <$> rows d;
          next_id := next_id d |},
       EffMerge <$> (merge_into <$> hit))
  end.

Definition upsertConnection (connectionId providerConfigKey provider : string)
    (parsedRawCredentials : AuthCredentials) (connectionConfig : option JsonMap)
    (environment_id accountId : Z) (metadata : option JsonMap) (d : Db)
    : list Z * Db * list Effect :=
  let row := encryptConnection
    {| id := 0; connection_id := connectionId;
       provider_config_key := providerConfigKey;
       environment_id := environment_id;
       credentials := parsedRawCredentials;
       connection_config := connectionConfig;
       metadata := metadata |} in
  let '(ids, d', eff) :=
    insert_or_merge row
      (fun r => {| id := id r; connection_id := connectionId;
                   provider_config_key := providerConfigKey;
                   environment_id := environment_id;
                   credentials := parsedRawCredentials;
                   connection_config := connectionConfig;
                   metadata := metadata |}) d in
  (ids, d', eff ++ [EffTrack "server:connection_upserted" accountId]).

(** The inserted object has no [metadata] key: a merge leaves that column
    as it is, an insert leaves it null. *)
Definition upsertApiConnection (connectionId providerConfigKey provider : string)
    (credentials : AuthCredentials) (connectionConfig : option JsonMap)
    (environment_id accountId : Z) (d : Db) : list Z * Db * list Effect :=
  let row := encryptConnection
    {| id := 0; connection_id := connectionId;
       provider_config_key := providerConfigKey;
       environment_id := environment_id;
       credentials := credentials;
       connection_config := connectionConfig;
       metadata := None |} in
  let '(ids, d', eff) :=
    insert_or_merge row
      (fun r => {| id := id r; connection_id := connectionId;
                   provider_config_key := providerConfigKey;
                   environment_id := environment_id;
                   credentials := credentials;
                   connection_config := connectionConfig;
                   metadata := metadata r |}) d in
  (ids, d', eff ++ [EffTrack "server:connection_upserted" accountId]).

(** [ImportedCredentials]: OAuth credentials that may carry
    [connection_config] and [metadata] next to the token fields. *)
Record ImportedCredentials := {
  imported : AuthCredentials;
  imported_connection_config : option JsonMap;
  imported_metadata : option JsonMap
}.

(** [syncClient] tells whether [SyncClient.getInstance()] gave a client. *)
Definition initiate_sync (syncClient : bool) (ids : list Z) : list Effect :=
  match ids with
  | i :: _ => if syncClient then [EffSyncInitiate i] else []
  | [] => []
  end.

Definition importOAuthConnection (connection_id provider_config_key provider : string)
    (environmentId accountId : Z) (parsedRawCredentials : ImportedCredentials)
    (syncClient : bool) (d : Db) : Ran (list Z) :=
  let connection_config := imported_connection_config parsedRawCredentials in
  let metadata := imported_metadata parsedRawCredentials in
  let '(importedConnection, d', eff) :=
    upsertConnection connection_id provider_config_key provider
      (imported parsedRawCredentials) connection_config environmentId accountId
      metadata d in
  {| result := Returned importedConnection; db_after := d';
     effects := eff ++ initiate_sync syncClient importedConnection |}.

Definition checkIfConnectionExists (connection_id provider_config_key : string)
    (environment_id : Z) (d : Db) : bool :=
  negb (bool_decide (select_where connection_id provider_config_key environment_id d = [])).

Definition connection_already_exists : Exn :=
  NangoError "connection_already_exists" [].

Definition importApiAuthConnection (connection_id provider_config_key provider : string)
    (environmentId accountId : Z) (credentials : AuthCredentials)
    (syncClient : bool) (d : Db) : Ran (list Z) :=
  let connection := checkIfConnectionExists connection_id provider_config_key environmentId d in
  if connection then
    {| result := Thrown connection_already_exists; db_after := d; effects := [] |}
  else
    let '(importedConnection, d', eff) :=
      upsertApiConnection connection_id provider_config_key provider credentials
        (Some ∅) environmentId accountId d in
    {| result := Returned importedConnection; db_after := d';
       effects := eff ++ initiate_sync syncClient importedConnection |}.

(** [updateConnection]: the rows of the connection's triple are rewritten
    with the whole (encrypted) connection. *)
Definition updateConnection (connection : Connection) (d : Db) : Db :=
  {| rows := (fun r => if row_matches (connection_id connection)
                             (provider_config_key connection)
                             (environment_id connection) r
                       then encryptConnection connection else r) <$> rows d;
     next_id := next_id d |}.

(** [deleteConnection]: [schedule] is what the call of
    [deleteSyncScheduleForConnection] does, [None] when it returns and
    [Some e] when it throws [e].  The connection argument is an object, so
    the guard [if (connection)] is taken. *)
Definition deleteConnection (connection : Connection) (providerConfigKey : string)
    (environment_id : Z) (schedule : option Exn) (d : Db) : Ran Z :=
  match schedule with
  | Some e =>
      {| result := Thrown e; db_after := d;
         effects := [EffCancelSchedule connection] |}
  | None =>
      let cid := connection_id connection in
      let gone := select_where cid providerConfigKey environment_id d in
      {| result := Returned (Z.of_nat (length gone));
         db_after :=
           {| rows := filter (fun r => row_matches cid providerConfigKey environment_id r = false)
                             (rows d);
              next_id := next_id d |};
         effects := [EffCancelSchedule connection;
                     EffDeleteRows cid providerConfigKey environment_id] |}
  end.

Section Store.
Context `{Collaborators}.

Definition unknown_connection (connectionId providerConfigKey : string)
    (environment_id : Z) : Exn :=
  NangoError "unknown_connection"
    [("connectionId", JStr connectionId);
     ("providerConfigKey", JStr providerConfigKey);
     ("environmentName", getEnvironmentName environment_id)].

(** The re-parse of a stored OAuth2 expiry. *)
Definition normalise_expiry (c : AuthCredentials) : AuthCredentials :=
  match c with
  | CredOAuth2 creds =>
      CredOAuth2 {| access_token := access_token creds;
                    refresh_token := refresh_token creds;
                    expires_at :=
                      match expires_at creds with
                      | Some e => Some (parseTokenExpirationDate (JDate e))
                      | None => None
                      end;
                    raw := raw creds |}
  | _ => c
  end.

Definition getConnection (connectionId providerConfigKey : string)
    (environment_id : Z) (d : Db) : Outcome Connection :=
  if String.eqb connectionId "" then
    Thrown (NangoError "missing_connection" [])
  else if String.eqb providerConfigKey "" then
    Thrown (NangoError "missing_provider_config" [])
  else if environment_id =? 0 then
    Thrown (NangoError "missing_environment" [])
  else
    match select_where connectionId providerConfigKey environment_id d with
    | [] => Thrown (unknown_connection connectionId providerConfigKey environment_id)
    | storedConnection :: _ =>
        let connection := decryptConnection storedConnection in
        Returned (with_credentials connection (normalise_expiry (credentials connection)))
    end.

End Store.

(** ** The refresh coordinator *)

Record ProviderConfig := { provider : string }.

(** The OAuth2 provider template; the buffer is a number of seconds or
    undefined. *)
Record Template := { token_expiration_buffer : option Z }.

(** [template.token_expiration_buffer || 15 * 60]. *)
Definition buffer_or_default (t : Template) : Z :=
  match token_expiration_buffer t with
  | Some b => if b =? 0 then 15 * 60 else b
  | None => 15 * 60
  end.

(** An entry of [runningCredentialsRefreshes]; the promise is named by its
    index in the table of promises. *)
Record CredentialsRefresh := {
  r_connectionId : string;
  r_providerConfigKey : string;
  r_promise : nat
}.

Definition same_key (connectionId providerConfigKey : string)
    (refresh : CredentialsRefresh) : bool :=
  String.eqb (r_connectionId refresh) connectionId
  && String.eqb (r_providerConfigKey refresh) providerConfigKey.

(** The scan of the registry: every match overwrites [runningRefresh], so
    the last matching entry is the one kept. *)
Fixpoint find_running (connectionId providerConfigKey : string)
    (l : list CredentialsRefresh) (runningRefresh : option CredentialsRefresh)
    : option CredentialsRefresh :=
  match l with
  | [] => runningRefresh
  | refresh :: l' =>
      find_running connectionId providerConfigKey l'
        (if same_key connectionId providerConfigKey refresh
         then Some refresh else runningRefresh)
  end.

(** [runningCredentialsRefreshes.filter(...)]: the entries of another key
    stay. *)
Definition remove_key (connectionId providerConfigKey : string)
    (l : list CredentialsRefresh) : list CredentialsRefresh :=
  filter (fun value => same_key connectionId providerConfigKey value = false) l.

(** A promise of credentials. *)
Inductive Settled :=
| Pending
| Resolved (c : AuthCredentials)
| Rejected (e : Exn).

(** The arguments of a call that stay fixed while it runs. *)
Record Args := {
  providerConfig : ProviderConfig;
  template : Template;
  activityLogId : option Z;
  instantRefresh : bool;
  logAction : string
}.

(** [activityLogId && logAction === 'token']. *)
Definition audited (a : Args) : bool :=
  match activityLogId a with
  | Some n => negb (n =? 0)
  | None => false
  end && String.eqb (logAction a) "token".

(** What a call hands back: [refreshOauth2CredentialsIfNeeded] the
    credentials, [getConnectionCredentials] the connection. *)
Inductive Answer :=
| GotCredentials (c : AuthCredentials)
| GotConnection (c : Connection).

(** Where a task is suspended.  The [At] points are those of a caller
    ([getConnectionCredentials], then [refreshOauth2CredentialsIfNeeded]),
    the [Ex] points those of the executor of the promise [p] that a
    refresh creates. *)
Inductive Pc :=
| AtGetConnection (connectionId providerConfigKey : string) (environmentId : Z)
| AtEnter
| AtIntrospect
| AtLogAction (p : nat)
| AtLogMessage (p : nat)
| AtPromise (p : nat)
| AtEnd (r : Outcome Answer)
| ExRefreshToken (p : nat)
| ExFreshCredentials (p : nat)
| ExUpdate (p : nat) (newCredentials : AuthCredentials)
| ExUpdated (p : nat) (newCredentials : AuthCredentials)
| ExCatchLogAction (p : nat) (e : Exn)
| ExCatchLogMessage (p : nat) (e : Exn)
| ExEnd.

Record Task := {
  via_get : bool;
  args : Args;
  conn : option Connection;
  pc : Pc
}.

Definition at_pc (t : Task) (l : Pc) : Task :=
  {| via_get := via_get t; args := args t; conn := conn t; pc := l |}.

Definition holding (t : Task) (c : Connection) : Task :=
  {| via_get := via_get t; args := args t; conn := Some c; pc := pc t |}.

(** What the service does that the outside can see. *)
Inductive Event :=
| EvOutbound (p : nat) (connectionId providerConfigKey : string)
| EvRegister (p : nat)
| EvPersist (p : nat) (c : Connection)
| EvUnregister (p : nat) (connectionId providerConfigKey : string)
| EvResolve (p : nat) (c : AuthCredentials)
| EvReject (p : nat) (e : Exn).

(** The service instance, the table and the suspended tasks.  [history]
    has the newest event first. *)
Record World := {
  runningCredentialsRefreshes : list CredentialsRefresh;
  db : Db;
  promises : list Settled;
  tasks : list Task;
  history : list Event
}.

Definition init_world (d : Db) : World :=
  {| runningCredentialsRefreshes := []; db := d; promises := [];
     tasks := []; history := [] |}.

Definition set_registry (r : list CredentialsRefresh) (w : World) : World :=
  {| runningCredentialsRefreshes := r; db := db w; promises := promises w;
     tasks := tasks w; history := history w |}.

Definition set_db (d : Db) (w : World) : World :=
  {| runningCredentialsRefreshes := runningCredentialsRefreshes w; db := d;
     promises := promises w; tasks := tasks w; history := history w |}.

Definition set_promises (ps : list Settled) (w : World) : World :=
  {| runningCredentialsRefreshes := runningCredentialsRefreshes w; db := db w;
     promises := ps; tasks := tasks w; history := history w |}.

Definition set_tasks (ts : list Task) (w : World) : World :=
  {| runningCredentialsRefreshes := runningCredentialsRefreshes w; db := db w;
     promises := promises w; tasks := ts; history := history w |}.

Definition emit (ev : Event) (w : World) : World :=
  {| runningCredentialsRefreshes := runningCredentialsRefreshes w; db := db w;
     promises := promises w; tasks := tasks w; history := ev :: history w |}.

Definition set_task (tid : nat) (t : Task) (w : World) : World :=
  set_tasks (<[tid := t]> (tasks w)) w.

Definition fork (t : Task) (w : World) : World :=
  set_tasks (tasks w ++ [t]) w.

Definition settle (p : nat) (s : Settled) (w : World) : World :=
  set_promises (<[p := s]> (promises w)) w.

(** What the outside world answers when a suspended task is resumed. *)
Inductive Resp :=
| RNone
| RBool (b : bool)
| RRaw (rawCreds : RawCreds)
| RCreds (c : OAuth2Credentials)
| RThrow (e : Exn).

Inductive Action :=
| Call_getConnectionCredentials (a : Args) (connectionId providerConfigKey : string)
    (environmentId : Z)
| Call_refreshOauth2CredentialsIfNeeded (a : Args) (connection : Connection)
| Resume (tid : nat) (r : Resp) (now : Z).

Section Coordinator.
Context `{Collaborators}.

(** The value a call ends with; [getConnectionCredentials] stores the
    credentials in its connection and returns the connection. *)
Definition hand_back (t : Task) (connection : Connection) (c : AuthCredentials) : Answer :=
  if via_get t then GotConnection (with_credentials connection c) else GotCredentials c.

Definition finish (tid : nat) (t : Task) (r : Outcome Answer) (w : World) : World :=
  set_task tid (at_pc t (AtEnd r)) w.

(** [this.runningCredentialsRefreshes.push(refresh); return promise]. *)
Definition register (tid : nat) (t : Task) (connection : Connection) (p : nat)
    (w : World) : World :=
  let refresh := {| r_connectionId := connection_id connection;
                    r_providerConfigKey := provider_config_key connection;
                    r_promise := p |} in
  set_task tid (at_pc t (AtPromise p))
    (emit (EvRegister p)
       (set_registry (runningCredentialsRefreshes w ++ [refresh]) w)).

(** The staleness test of the source, [refresh] being the value of
    [instantRefresh || (shouldIntrospectToken && introspectedTokenExpired)]. *)
Definition needs_refresh (a : Args) (credentials : AuthCredentials) (refresh : bool)
    (now : Z) : bool :=
  truthy (cred_refresh_token credentials)
  && (refresh
      || match cred_expires_at credentials with
         | Some e => isTokenExpired e (buffer_or_default (template a)) now
         | None => false
         end).

(** From the staleness test to the first suspension after it.  A stale
    credential creates the promise, whose executor runs at once up to its
    first await, the outbound refresh call; then, for an audited call, the
    two activity-log awaits come before the push onto the registry. *)
Definition decide (tid : nat) (t : Task) (connection : Connection) (refresh : bool)
    (now : Z) (w : World) : World :=
  let credentials := credentials connection in
  if needs_refresh (args t) credentials refresh now then
    let p := length (promises w) in
    let executor :=
      at_pc t (if shouldUseProviderClient (provider (providerConfig (args t)))
               then ExRefreshToken p else ExFreshCredentials p) in
    let w1 :=
      emit (EvOutbound p (connection_id connection) (provider_config_key connection))
        (fork executor (set_promises (promises w ++ [Pending]) w)) in
    if audited (args t) then set_task tid (at_pc t (AtLogAction p)) w1
    else register tid t connection p w1
  else
    finish tid t (Returned (hand_back t connection credentials)) w.

(** From the entry of [refreshOauth2CredentialsIfNeeded] to its first
    suspension. *)
Definition enter (tid : nat) (t : Task) (connection : Connection) (now : Z)
    (w : World) : World :=
  match find_running (connection_id connection) (provider_config_key connection)
          (runningCredentialsRefreshes w) None with
  | Some runningRefresh => set_task tid (at_pc t (AtPromise (r_promise runningRefresh))) w
  | None =>
      if instantRefresh (args t) then decide tid t connection true now w
      else if shouldIntrospectToken (provider (providerConfig (args t))) then
        set_task tid (at_pc t AtIntrospect) w
      else decide tid t connection false now w
  end.

Definition unregister (p : nat) (connection : Connection) (w : World) : World :=
  emit (EvUnregister p (connection_id connection) (provider_config_key connection))
    (set_registry
       (remove_key (connection_id connection) (provider_config_key connection)
          (runningCredentialsRefreshes w)) w).

Definition reject (tid : nat) (t : Task) (p : nat) (e : Exn) (w : World) : World :=
  set_task tid (at_pc t ExEnd) (emit (EvReject p e) (settle p (Rejected e) w)).

(** The catch block of the executor, to its first await or to [reject]. *)
Definition catch (tid : nat) (t : Task) (connection : Connection) (p : nat)
    (e : Exn) (w : World) : World :=
  let w1 := unregister p connection w in
  if audited (args t) then set_task tid (at_pc t (ExCatchLogAction p e)) w1
  else reject tid t p e w1.

(** [connection.credentials = newCredentials; await
    this.updateConnection(connection)]: the write is issued. *)
Definition issue_update (tid : nat) (t : Task) (connection : Connection) (p : nat)
    (newCredentials : AuthCredentials) (w : World) : World :=
  set_task tid
    (at_pc (holding t (with_credentials connection newCredentials))
       (ExUpdate p newCredentials)) w.

(** One atomic segment of task [tid], resumed with the answer [r] at clock
    reading [now]; [None] when the task cannot be resumed that way.

    [getConnectionCredentials] reads the table in [getConnection], then
    awaits the provider configuration and the activity log, which touch
    neither the table nor the registry: from [AtGetConnection] the task is
    next suspended at the call of [refreshOauth2CredentialsIfNeeded], made
    for OAuth2 credentials only.  The configuration and the template that
    the lookups give are those of [args]. *)
Definition resume (tid : nat) (t : Task) (r : Resp) (now : Z) (w : World)
    : option World :=
  match pc t, r with
  | AtGetConnection connectionId providerConfigKey environmentId, RNone =>
      match getConnection connectionId providerConfigKey environmentId (db w) with
      | Thrown e => Some (finish tid t (Thrown e) w)
      | Returned connection =>
          match cred_type (credentials connection) with
          | OAuth2 => Some (set_task tid (at_pc (holding t connection) AtEnter) w)
          | _ => Some (finish tid (holding t connection)
                         (Returned (GotConnection connection)) w)
          end
      end
  | AtEnter, RNone =>
      connection ← conn t; Some (enter tid t connection now w)
  | AtIntrospect, RBool expired =>
      connection ← conn t; Some (decide tid t connection expired now w)
  | AtIntrospect, RThrow e => Some (finish tid t (Thrown e) w)
  | AtLogAction p, RNone => Some (set_task tid (at_pc t (AtLogMessage p)) w)
  | AtLogAction p, RThrow e => Some (finish tid t (Thrown e) w)
  | AtLogMessage p, RNone =>
      connection ← conn t; Some (register tid t connection p w)
  | AtLogMessage p, RThrow e => Some (finish tid t (Thrown e) w)
  | AtPromise p, RNone =>
      connection ← conn t;
      match promises w !! p with
      | Some (Resolved c) => Some (finish tid t (Returned (hand_back t connection c)) w)
      | Some (Rejected e) => Some (finish tid t (Thrown e) w)
      | _ => None
      end
  | ExRefreshToken p, RRaw rawCreds =>
      connection ← conn t;
      match parseRawCredentials now rawCreds OAuth2 with
      | Returned newCredentials => Some (issue_update tid t connection p newCredentials w)
      | Thrown e => Some (catch tid t connection p e w)
      end
  | ExFreshCredentials p, RCreds c =>
      connection ← conn t; Some (issue_update tid t connection p (CredOAuth2 c) w)
  | ExRefreshToken p, RThrow e | ExFreshCredentials p, RThrow e =>
      connection ← conn t; Some (catch tid t connection p e w)
  | ExUpdate p newCredentials, RNone =>
      (* the table commits the write of [updateConnection] *)
      connection ← conn t;
      Some (set_task tid (at_pc t (ExUpdated p newCredentials))
              (emit (EvPersist p connection)
                 (set_db (updateConnection connection (db w)) w)))
  | ExUpdate p newCredentials, RThrow e =>
      connection ← conn t; Some (catch tid t connection p e w)
  | ExUpdated p newCredentials, RNone =>
      connection ← conn t;
      Some (set_task tid (at_pc t ExEnd)
              (emit (EvResolve p newCredentials)
                 (settle p (Resolved newCredentials)
                    (unregister p connection w))))
  | ExCatchLogAction p e, RNone => Some (set_task tid (at_pc t (ExCatchLogMessage p e)) w)
  | ExCatchLogMessage p e, RNone => Some (reject tid t p e w)
  | ExCatchLogAction p e, RThrow _ | ExCatchLogMessage p e, RThrow _ =>
      (* the executor dies in its catch block: the promise is never settled *)
      Some (set_task tid (at_pc t ExEnd) w)
  | _, _ => None
  end.

(** A call is recorded as a task suspended at its first statement; the
    schedule runs its segments. *)
Definition step (w : World) (a : Action) : option World :=
  match a with
  | Call_getConnectionCredentials a connectionId providerConfigKey environmentId =>
      Some (fork {| via_get := true; args := a; conn := None;
                    pc := AtGetConnection connectionId providerConfigKey environmentId |} w)
  | Call_refreshOauth2CredentialsIfNeeded a connection =>
      Some (fork {| via_get := false; args := a; conn := Some connection;
                    pc := AtEnter |} w)
  | Resume tid r now => t ← tasks w !! tid; resume tid t r now w
  end.

Fixpoint run (w : World) (schedule : list Action) : option World :=
  match schedule with
  | [] => Some w
  | a :: schedule' => w' ← step w a; run w' schedule'
  end.

Inductive reachable (d : Db) : World -> Prop :=
| reach_init : reachable d (init_world d)
| reach_step w a w' : reachable d w -> step w a = Some w' -> reachable d w'.

End Coordinator.

(** The refresh requests that are out and unanswered. *)
Definition awaits_provider (connectionId providerConfigKey : string) (t : Task) : bool :=
  match pc t, conn t with
  | ExRefreshToken _, Some c | ExFreshCredentials _, Some c =>
      String.eqb (connection_id c) connectionId
      && String.eqb (provider_config_key c) providerConfigKey
  | _, _ => false
  end.

Definition in_flight (connectionId providerConfigKey : string) (w : World) : nat :=
  length (filter (fun t => awaits_provider connectionId providerConfigKey t = true) (tasks w)).

Definition is_outbound (ev : Event) : bool :=
  match ev with EvOutbound _ _ _ => true | _ => false end.

Definition outbound_calls (w : World) : nat :=
  length (filter (fun ev => is_outbound ev = true) (history w)).

Definition answer_of (tid : nat) (w : World) : option (Outcome Answer) :=
  t ← tasks w !! tid;
  match pc t with AtEnd r => Some r | _ => None end.

(** ** The staleness rule, in the words of the specification *)

Section StaleRule.
Context `{Collaborators}.



End StaleRule.

(** ** The order of events of an executor, as an invariant *)







(** ** Sample connections, calls and schedules *)

Definition token (access refresh : string) (expiry : option Z) : OAuth2Credentials :=
  {| access_token := JStr access; refresh_token := JStr refresh;
     expires_at := ValidDate <$> expiry; raw := ∅ |}.

(** Connection [c1] of provider config [slack], as row [row] of
    environment [env]. *)
Definition slack_c1 (row env : Z) (c : OAuth2Credentials) : Connection :=
  {| id := row; connection_id := "c1"; provider_config_key := "slack";
     environment_id := env; credentials := CredOAuth2 c;
     connection_config := None; metadata := None |}.

(** Two environments that each have a connection [c1] of [slack]; both
    tokens expired at 999 s. *)
Definition two_environments : Db :=
  {| rows := [slack_c1 1 1 (token "a1" "r1" (Some 999000));
              slack_c1 2 2 (token "a2" "r2" (Some 999000))];
     next_id := 3 |}.

Definition slack_args (log : option Z) (instant : bool) : Args :=
  {| providerConfig := {| provider := "slack" |};
     template := {| token_expiration_buffer := None |};
     activityLogId := log; instantRefresh := instant; logAction := "token" |}.

(** The clock of the samples: 1000 s. *)
Definition noon : Z := 1000000.

Definition stale_c1 : Connection := slack_c1 1 1 (token "a1" "r1" (Some 999000)).

(** Two audited calls for the same stale connection; the second enters
    while the first awaits the activity log, before its push. *)
Definition race_start : list Action :=
  [ Call_refreshOauth2CredentialsIfNeeded (slack_args (Some 7) false) stale_c1;
    Call_refreshOauth2CredentialsIfNeeded (slack_args (Some 7) false) stale_c1;
    Resume 0 RNone noon;
    Resume 1 RNone noon ].

(** Both refreshes are answered, written and resolved; then both callers
    finish their log calls, push their entry and take their promise. *)
Definition race_finish : list Action :=
  [ Resume 2 (RCreds (token "n1" "r1" (Some 4600000))) noon;
    Resume 2 RNone noon;
    Resume 2 RNone noon;
    Resume 3 (RCreds (token "n2" "r1" (Some 4600000))) noon;
    Resume 3 RNone noon;
    Resume 3 RNone noon;
    Resume 0 RNone noon; Resume 0 RNone noon; Resume 0 RNone noon;
    Resume 1 RNone noon; Resume 1 RNone noon; Resume 1 RNone noon ].

Definition provider_down : Exn := ExternalError "token endpoint refused".

(** One audited call whose refresh request fails while the caller still
    awaits the activity log; a second call comes after everything ended. *)
Definition failed_refresh : list Action :=
  [ Call_refreshOauth2CredentialsIfNeeded (slack_args (Some 7) false) stale_c1;
    Resume 0 RNone noon;
    Resume 1 (RThrow provider_down) noon;
    Resume 1 RNone noon;
    Resume 1 RNone noon;
    Resume 0 RNone noon; Resume 0 RNone noon; Resume 0 RNone noon ].

Definition later_call : list Action :=
  [ Call_refreshOauth2CredentialsIfNeeded (slack_args None false) stale_c1;
    Resume 2 RNone (noon + 3600000);
    Resume 2 RNone (noon + 3600000) ].

(** Environment 1 and environment 2 ask for their own [c1] of [slack];
    the call of environment 2 enters while the refresh of environment 1 is
    registered. *)
Definition cross_environment : list Action :=
  [ Call_getConnectionCredentials (slack_args None false) "c1" "slack" 1;
    Resume 0 RNone noon;
    Resume 0 RNone noon;
    Call_getConnectionCredentials (slack_args None false) "c1" "slack" 2;
    Resume 2 RNone noon;
    Resume 2 RNone noon;
    Resume 1 (RCreds (token "n1" "r1" (Some 4600000))) noon;
    Resume 1 RNone noon;
    Resume 1 RNone noon;
    Resume 0 RNone noon;
    Resume 2 RNone noon ].

(** A connection without expiry, of a provider that needs no
    introspection. *)
Definition github_like : Connection := slack_c1 1 1 (token "a1" "r1" None).

(** A forced refresh is registered; a second, unforced call for the same
    connection enters before it completes. *)
Definition join_running : list Action :=
  [ Call_refreshOauth2CredentialsIfNeeded (slack_args None true) github_like;
    Resume 0 RNone noon;
    Call_refreshOauth2CredentialsIfNeeded (slack_args None false) github_like;
    Resume 2 RNone noon;
    Resume 1 (RCreds (token "n1" "r1" None)) noon;
    Resume 1 RNone noon;
    Resume 1 RNone noon;
    Resume 2 RNone noon ].

(** ** The other queries of the store *)

(** The uniqueness key of the table. *)
Definition triple (r : Connection) : string * string * Z :=
  (connection_id r, provider_config_key r, environment_id r).

(** The environment column of a row, for use under a binder that is named
    like the column. *)
Definition env_of (r : Connection) : Z := environment_id r.

(** [NangoConnection]: the columns [getConnectionsByEnvironmentAndConfig]
    selects. *)
Record NangoConnection := {
  nc_id : Z;
  nc_connection_id : string;
  nc_provider_config_key : string;
  nc_environment_id : Z
}.

Definition to_NangoConnection (r : Connection) : NangoConnection :=
  {| nc_id := id r; nc_connection_id := connection_id r;
     nc_provider_config_key := provider_config_key r;
     nc_environment_id := environment_id r |}.

Definition getConnectionsByEnvironmentAndConfig (environment_id : Z)
    (providerConfigKey : string) (d : Db) : list NangoConnection :=
  let result :=
    to_NangoConnection
      <$> filter (fun r => (env_of r =? environment_id)
                           && String.eqb (provider_config_key r) providerConfigKey = true)
            (rows d) in
  match result with
  | [] => []
  | _ :: _ => result
  end.

(** A row of [listConnections]: [provider] is the provider config key.
    The table of this development has no [created_at] column, so the
    [created] field of the source is left out. *)
Record ConnectionSummary := {
  s_id : Z;
  s_connection_id : string;
  s_provider : string
}.

Definition to_summary (r : Connection) : ConnectionSummary :=
  {| s_id := id r; s_connection_id := connection_id r;
     s_provider := provider_config_key r |}.

(** [connectionId] is optional; the second [where] is added for a truthy
    one. *)
Definition listConnections (environment_id : Z) (connectionId : option string)
    (d : Db) : list ConnectionSummary :=
  let in_environment :=
    filter (fun r => (env_of r =? environment_id) = true) (rows d) in
  to_summary
    <$> match connectionId with
        | Some c =>
            if String.eqb c "" then in_environment
            else filter (fun r => String.eqb (connection_id r) c = true) in_environment
        | None => in_environment
        end.

(** The metadata column of a row, for use under a binder that is named like
    the column. *)
Definition meta_of (r : Connection) : option JsonMap := metadata r.

(** ** Promises and their executors, as an invariant *)

(** The promise an executor is to settle. *)
Definition exec_of (l : Pc) : option nat :=
  match l with
  | ExRefreshToken p | ExFreshCredentials p | ExUpdate p _ | ExUpdated p _
  | ExCatchLogAction p _ | ExCatchLogMessage p _ => Some p
  | _ => None
  end.

(** The promise a caller holds. *)
Definition awaited_of (l : Pc) : option nat :=
  match l with
  | AtLogAction p | AtLogMessage p | AtPromise p => Some p
  | _ => None
  end.

Definition executors (w : World) : list nat :=
  omap (fun t => exec_of (pc t)) (tasks w).

(** One refresh request per promise; registry entries and callers name
    promises that exist; every promise that still has an executor is
    pending, and no two executors share a promise. *)
Record Wf (w : World) : Prop := {
  wf_outbound : outbound_calls w = length (promises w);
  wf_registry :
    Forall (fun r => (r_promise r < length (promises w))%nat)
      (runningCredentialsRefreshes w);
  wf_awaited :
    Forall (fun t => forall p, awaited_of (pc t) = Some p ->
                               (p < length (promises w))%nat) (tasks w);
  wf_pending : Forall (fun p => promises w !! p = Some Pending) (executors w);
  wf_distinct : NoDup (executors w)
}.

(** ** Deduplication, for calls that do not await before they register *)

(** The key under which an executor that has not yet filtered the registry
    is to be found there. *)
Definition active_key (t : Task) : option (string * string) :=
  match pc t, conn t with
  | ExRefreshToken _, Some c | ExFreshCredentials _, Some c
  | ExUpdate _ _, Some c | ExUpdated _ _, Some c =>
      Some (connection_id c, provider_config_key c)
  | _, _ => None
  end.

Definition active_keys (w : World) : list (string * string) :=
  omap active_key (tasks w).

Section Atomic.
Context `{Collaborators}.

(** A call that reaches the push of its entry without an await: it has no
    audit context to log to, and it is forced or its provider needs no
    introspection. *)
Definition atomic_call (a : Args) : bool :=
  negb (audited a)
  && (instantRefresh a || negb (shouldIntrospectToken (provider (providerConfig a)))).

Definition calm (act : Action) : bool :=
  match act with
  | Call_getConnectionCredentials a _ _ _ => atomic_call a
  | Call_refreshOauth2CredentialsIfNeeded a _ => atomic_call a
  | Resume _ _ _ => true
  end.

(** A task of such a call is never at one of the awaits it does not have. *)
Definition quiet (t : Task) : Prop :=
  atomic_call (args t) = true
  /\ match pc t with
     | AtIntrospect | AtLogAction _ | AtLogMessage _
     | ExCatchLogAction _ _ | ExCatchLogMessage _ _ => False
     | _ => True
     end.

Record Dedup (w : World) : Prop := {
  dd_quiet : Forall quiet (tasks w);
  dd_distinct : NoDup (active_keys w);
  dd_registered :
    Forall (fun k => find_running k.1 k.2 (runningCredentialsRefreshes w) None ≠ None)
      (active_keys w)
}.

End Atomic.

(** ** Decimal notation *)

(** [String(n)] for an integer: its decimal digits, with a minus sign for a
    negative one. *)
Definition decimal (n : Z) : string :=
  DecimalString.NilZero.string_of_int (Z.to_int n).

(** * The Node client (packages/node-client/lib/index.ts)

    The class [Nango] builds HTTP requests to the server.  A request is
    modelled as the value that is handed to axios; axios itself and the
    server's answer are outside. *)

Module NodeClient.

Definition stagingHost : string := "https://api-staging.nango.dev".
Definition prodHost : string := "https://api.nango.dev".

(** A plain [Error] with its message. *)
Inductive Res (A : Type) :=
| Ok (a : A)
| Error (message : string).
Arguments Ok {A} a.
Arguments Error {A} message.

(** [s.slice(-1)]: the last character as a string, or the empty string. *)
Fixpoint slice_last (s : string) : string :=
  match s with
  | EmptyString => EmptyString
  | String c EmptyString => String c EmptyString
  | String _ s' => slice_last s'
  end.

(** [s.slice(0, -1)]: all but the last character. *)
Fixpoint slice_but_last (s : string) : string :=
  match s with
  | EmptyString => EmptyString
  | String _ EmptyString => EmptyString
  | String c s' => String c (slice_but_last s')
  end.

(** [toUpperCase] on the ASCII letters; the strings of this model are
    ASCII. *)
Definition upper_char (c : ascii) : ascii :=
  let n := nat_of_ascii c in
  if ((97 <=? n) && (n <=? 122))%nat then ascii_of_nat (n - 32) else c.

Fixpoint toUpperCase (s : string) : string :=
  match s with
  | EmptyString => EmptyString
  | String c s' => String (upper_char c) (toUpperCase s')
  end.

(** [x || d] on an optional string. *)
Definition or_else (x : option string) (d : string) : string :=
  match x with
  | Some s => if String.eqb s "" then d else s
  | None => d
  end.

(** A header value: string, number, boolean, or [undefined] where a cast
    hides a missing value. *)
Inductive HeaderValue :=
| HStr (s : string)
| HNum (n : Z)
| HBool (b : bool)
| HUndefined.

Abbreviation Headers := (gmap string HeaderValue).

Record NangoProps := {
  host : option string;
  secretKey : string;
  connectionId : option string;
  providerConfigKey : option string;
  isSync : option bool;
  dryRun : option bool;
  activityLogId : option Z
}.

(** The fields of the class; [proxyCaller] is axios or its stand-in and
    is not part of the model. *)
Record Nango := {
  serverUrl : string;
  this_secretKey : string;
  this_connectionId : string;
  this_providerConfigKey : string;
  this_isSync : bool;
  this_dryRun : bool;
  this_activityLogId : option Z
}.

(** [valid_url] is the built-in [new URL(s)]: whether it accepts [s]. *)
Definition constructor (valid_url : string -> bool) (config : NangoProps) : Res Nango :=
  let host := or_else (host config) prodHost in
  let serverUrl :=
    if String.eqb (slice_last host) "/" then slice_but_last host else host in
  if String.eqb (secretKey config) "" then
    Error "You must specify a secret key (cf. documentation)."
  else if negb (valid_url serverUrl) then
    Error (String.append "Invalid URL provided for the Nango host: " serverUrl)
  else
    Ok {| serverUrl := serverUrl;
          this_secretKey := secretKey config;
          this_connectionId := or_else (connectionId config) "";
          this_providerConfigKey := or_else (providerConfigKey config) "";
          this_isSync := default false (isSync config);
          this_dryRun := default false (dryRun config);
          this_activityLogId :=
            match activityLogId config with
            | Some n => if n =? 0 then None else Some n
            | None => None
            end |}.

(** [params] of a proxy call: a query string or a record. *)
Inductive Params :=
| ParamsString (s : string)
| ParamsRecord (m : gmap string string).

Definition params_truthy (p : Params) : bool :=
  match p with
  | ParamsString s => negb (String.eqb s "")
  | ParamsRecord _ => true
  end.

Inductive Verb := GET | POST | PATCH | PUT | DELETE.

Section Requests.
(** The type of request bodies ([data?: unknown]) and of the parameter
    serializers, which the client passes on untouched. *)
Variable Data Serializer : Type.

Record ProxyConfiguration := {
  endpoint : string;
  cfg_providerConfigKey : option string;
  cfg_connectionId : option string;
  method : option string;
  headers : option (gmap string string);
  params : option Params;
  paramsSerializer : option Serializer;
  data : option Data;
  retries : option Z;
  baseUrlOverride : option string
}.

Record AxiosRequestConfig := {
  req_headers : Headers;
  req_params : option Params;
  req_paramsSerializer : option Serializer
}.

(** A call of [proxyCaller.get/post/patch/put/delete]; [get] and [delete]
    take no body. *)
Record Request := {
  verb : Verb;
  url : string;
  body : option Data;
  options : AxiosRequestConfig
}.

Definition enrichHeaders (this : Nango) (headers : Headers) : Headers :=
  <["Authorization" := HStr (String.append "Bearer " (this_secretKey this))]> headers.

Definition proxy_prefix (key : string) : string := String.append "Nango-Proxy-" key.

(** The [reduce] over the keys of the custom headers. *)
Definition customPrefixedHeaders (customHeaders : option (gmap string string)) : Headers :=
  match customHeaders with
  | Some h =>
      if bool_decide (0 < size h)%nat then
        list_to_map ((fun kv => (proxy_prefix kv.1, HStr kv.2)) <$> map_to_list h)
      else ∅
  | None => ∅
  end.

Definition falsy (x : option string) : bool :=
  match x with
  | Some s => String.eqb s ""
  | None => true
  end.

Definition cast_string (x : option string) : HeaderValue :=
  match x with
  | Some s => HStr s
  | None => HUndefined
  end.

(** [with_ids]: the first two statements of [proxy], which fill the ids of
    the configuration from the client. *)
Definition with_ids (this : Nango) (config : ProxyConfiguration) : ProxyConfiguration :=
  let connectionId :=
    if falsy (cfg_connectionId config) && negb (String.eqb (this_connectionId this) "")
    then Some (this_connectionId this) else cfg_connectionId config in
  let providerConfigKey :=
    if falsy (cfg_providerConfigKey config)
       && negb (String.eqb (this_providerConfigKey this) "")
    then Some (this_providerConfigKey this) else cfg_providerConfigKey config in
  {| endpoint := endpoint config;
     cfg_providerConfigKey := providerConfigKey;
     cfg_connectionId := connectionId;
     method := method config; headers := headers config; params := params config;
     paramsSerializer := paramsSerializer config; data := data config;
     retries := retries config; baseUrlOverride := baseUrlOverride config |}.

(** [validateProxyConfiguration] of utils.ts is a parameter: the message of
    the error it throws, if it throws. *)
Variable validateProxyConfiguration : ProxyConfiguration -> option string.

(** The object literal [headers] of [proxy], with [Retries] added for a
    truthy retry count. *)
Definition proxy_headers (this : Nango) (config : ProxyConfiguration) : Headers :=
  let fixed : Headers :=
    <["Connection-Id" := cast_string (cfg_connectionId config)]>
    (<["Provider-Config-Key" := cast_string (cfg_providerConfigKey config)]>
    (<["Base-Url-Override" := HStr (or_else (baseUrlOverride config) "")]>
    (<["Nango-Is-Sync" := HBool (this_isSync this)]>
    (<["Nango-Is-Dry-Run" := HBool (this_dryRun this)]>
    (<["Nango-Activity-Log-Id" :=
         match this_activityLogId this with
         | Some n => HNum n
         | None => HStr ""
         end]> ∅))))) in
  let headers : Headers := customPrefixedHeaders (headers config) ∪ fixed in
  match retries config with
  | Some n => if n =? 0 then headers else <["Retries" := HNum n]> headers
  | None => headers
  end.

Definition proxy_options (this : Nango) (config : ProxyConfiguration)
    : AxiosRequestConfig :=
  {| req_headers := enrichHeaders this (proxy_headers this config);
     req_params :=
       match params config with
       | Some p => if params_truthy p then Some p else None
       | None => None
       end;
     req_paramsSerializer := paramsSerializer config |}.

Definition proxy (this : Nango) (config0 : ProxyConfiguration) : Res Request :=
  let config := with_ids this config0 in
  match validateProxyConfiguration config with
  | Some message => Error message
  | None =>
      let url := String.append (serverUrl this) (String.append "/proxy/" (endpoint config)) in
      let opts := proxy_options this config in
      let m := toUpperCase <$> method config in
      if bool_decide (m = Some "POST") then
        Ok {| verb := POST; url := url; body := data config; options := opts |}
      else if bool_decide (m = Some "PATCH") then
        Ok {| verb := PATCH; url := url; body := data config; options := opts |}
      else if bool_decide (m = Some "PUT") then
        Ok {| verb := PUT; url := url; body := data config; options := opts |}
      else if bool_decide (m = Some "DELETE") then
        Ok {| verb := DELETE; url := url; body := None; options := opts |}
      else
        Ok {| verb := GET; url := url; body := None; options := opts |}
  end.

(** [{ ...config, method: m }]. *)
Definition with_method (config : ProxyConfiguration) (m : string) : ProxyConfiguration :=
  {| endpoint := endpoint config;
     cfg_providerConfigKey := cfg_providerConfigKey config;
     cfg_connectionId := cfg_connectionId config;
     method := Some m; headers := headers config; params := params config;
     paramsSerializer := paramsSerializer config; data := data config;
     retries := retries config; baseUrlOverride := baseUrlOverride config |}.

Definition get (this : Nango) (config : ProxyConfiguration) : Res Request :=
  proxy this (with_method config "GET").

Definition post (this : Nango) (config : ProxyConfiguration) : Res Request :=
  proxy this (with_method config "POST").

Definition patch (this : Nango) (config : ProxyConfiguration) : Res Request :=
  proxy this (with_method config "PATCH").

Definition delete (this : Nango) (config : ProxyConfiguration) : Res Request :=
  proxy this (with_method config "DELETE").

End Requests.

End NodeClient.

(** * The migration that consolidates connection metadata

    [exports.up] of the migration of [_nango_connections]: (1) merge
    [metadata] into [connection_config], (2) move [field_mappings] into
    [metadata] under the key [fieldMapping], then drop the column
    [field_mappings]. *)

Module Migration.

#[local] Set Warnings "-register-all".

(** A JSON value: a scalar or an object. *)
Inductive Json :=
| JsonScalar (v : JsValue)
| JsonObject (m : gmap string Json).

(** A jsonb column: NULL or an object. *)
Abbreviation Column := (option (gmap string Json)).

(** The columns of a row that the migration reads or writes. *)
Record Row := {
  id : Z;
  metadata : Column;
  connection_config : Column;
  field_mappings : Column
}.

(** [.whereNotNull(c).andWhere(c, '!=', '{}')]. *)
Definition not_empty (c : Column) : bool :=
  match c with
  | Some m => negb (size m =? 0)%nat
  | None => false
  end.

(** [{ ...a, ...b }]: the entries of [b] win; spreading null adds
    nothing. *)
Definition spread (a b : Column) : gmap string Json :=
  default ∅ b ∪ default ∅ a.

(** [.update(...).where({ id })]. *)
Definition update_where_id (i : Z) (f : Row -> Row) (rows : list Row) : list Row :=
  (fun r => if id r =? i then f r else r) <$> rows.

(** The first loop: one update per selected record, from the values
    selected before the loop. *)
Definition merge_metadata (rows : list Row) : list Row :=
  let existingMetaData := filter (fun r => not_empty (metadata r) = true) rows in
  foldl
    (fun table record =>
       let updatedConnectionConfig :=
         spread (connection_config record) (metadata record) in
       update_where_id (id record)
         (fun r => {| id := id r; metadata := Some ∅;
                      connection_config := Some updatedConnectionConfig;
                      field_mappings := field_mappings r |})
         table)
    rows existingMetaData.

(** The second loop. *)
Definition move_field_mappings (rows : list Row) : list Row :=
  let existingFieldMappings :=
    filter (fun r => not_empty (field_mappings r) = true) rows in
  foldl
    (fun table record =>
       let updatedFieldMappings : gmap string Json :=
         {[ "fieldMapping" := JsonObject (default ∅ (field_mappings record)) ]} in
       update_where_id (id record)
         (fun r => {| id := id r; metadata := Some updatedFieldMappings;
                      connection_config := connection_config r;
                      field_mappings := Some ∅ |})
         table)
    rows existingFieldMappings.

(** A row once the column [field_mappings] is dropped. *)
Record RowAfter := {
  a_id : Z;
  a_metadata : Column;
  a_connection_config : Column
}.

Definition dropColumn (r : Row) : RowAfter :=
  {| a_id := id r; a_metadata := metadata r;
     a_connection_config := connection_config r |}.

Definition up (rows : list Row) : list RowAfter :=
  dropColumn <$> move_field_mappings (merge_metadata rows).

(** What [up] is to do to one row. *)
Definition consolidated (r : Row) : RowAfter :=
  {| a_id := id r;
     a_metadata :=
       if not_empty (field_mappings r) then
         Some {[ "fieldMapping" := JsonObject (default ∅ (field_mappings r)) ]}
       else if not_empty (metadata r) then Some ∅
       else metadata r;
     a_connection_config :=
       if not_empty (metadata r) then
         Some (spread (connection_config r) (metadata r))
       else connection_config r |}.

(** What a sequence of updates by id makes of one row: [g record r] is
    what the update made for [record] writes into the row [r]. *)
Definition step_row (g : Row -> Row -> Row) (acc record : Row) : Row :=
  if id acc =? id record then g record acc else acc.

(** A table of two connections for closed examples. *)
Definition two_rows : list Row :=
  [ {| id := 1;
       metadata := Some {[ "team" := JsonScalar (JStr "blue") ]};
       connection_config := Some {[ "subdomain" := JsonScalar (JStr "acme") ]};
       field_mappings := None |};
    {| id := 2;
       metadata := None;
       connection_config := None;
       field_mappings := Some {[ "name" := JsonScalar (JStr "full_name") ]} |} ].

End Migration.

(** ** Further sample data *)



(** A call of [getConnectionCredentials] that has not run yet. *)
Definition asking (connectionId providerConfigKey : string) (environmentId : Z) : Task :=
  {| via_get := true; args := slack_args None false; conn := None;
     pc := AtGetConnection connectionId providerConfigKey environmentId |}.

(** A client with default ids, and a request that names its method in
    lower case and tries to pass its own [Authorization] header. *)
Definition sample_client : NodeClient.Nango :=
  {| NodeClient.serverUrl := "https://api.nango.dev";
     NodeClient.this_secretKey := "sk";
     NodeClient.this_connectionId := "c1";
     NodeClient.this_providerConfigKey := "slack";
     NodeClient.this_isSync := false;
     NodeClient.this_dryRun := false;
     NodeClient.this_activityLogId := None |}.

Definition sample_request : NodeClient.ProxyConfiguration string unit :=
  {| NodeClient.endpoint := "users";
     NodeClient.cfg_providerConfigKey := None;
     NodeClient.cfg_connectionId := None;
     NodeClient.method := Some "post";
     NodeClient.headers := Some {[ "Authorization" := "Bearer mine" ]};
     NodeClient.params := None;
     NodeClient.paramsSerializer := None;
     NodeClient.data := Some "{}";
     NodeClient.retries := None;
     NodeClient.baseUrlOverride := None |}.

(** * Properties *)

(** ** The parser *)

Section ParserFacts.
Context `{Collaborators}.

Lemma unknown_type_not_incomplete (rawCreds : RawCreds) :
  unknown_credentials_type rawCreds ≠ incomplete_raw_credentials.
Proof. unfold unknown_credentials_type, incomplete_raw_credentials. simpl. discriminate. Qed.


(** C6, as amended.  [parseRawCredentials] throws
    [incomplete_raw_credentials] exactly when the mode is OAuth2 and
    [access_token] is falsy (absent, undefined, null, false, 0 or the empty
    string), or the mode is OAuth1 and one of [oauth_token],
    [oauth_token_secret] is falsy; the empty object in mode OAuth2 is such a
    case. *)
Theorem parse_incomplete_iff (now : Z) (rawCreds : RawCreds) (authMode : AuthModes) :
  (parseRawCredentials now rawCreds authMode = Thrown incomplete_raw_credentials
   <-> (authMode = OAuth2 /\ truthy (prop rawCreds "access_token") = false)
       \/ (authMode = OAuth1
           /\ (truthy (prop rawCreds "oauth_token") = false
               \/ truthy (prop rawCreds "oauth_token_secret") = false)))
  /\ parseRawCredentials now ∅ OAuth2 = Thrown incomplete_raw_credentials.
Proof.
  split; [| reflexivity].
  unfold parseRawCredentials.
  destruct authMode.
  - destruct (truthy (prop rawCreds "oauth_token")) eqn:E1,
             (truthy (prop rawCreds "oauth_token_secret")) eqn:E2; simpl;
      split; intros G; try discriminate; auto;
      destruct G as [[G _] | [_ [G | G]]]; discriminate.
  - destruct (truthy (prop rawCreds "access_token")) eqn:E; simpl;
      split; intros G; try discriminate; auto;
      destruct G as [[_ G] | [G _]]; discriminate.
  - split; intros G.
    + exfalso. apply (unknown_type_not_incomplete rawCreds). congruence.
    + destruct G as [[G _] | [G _]]; discriminate.
  - split; intros G.
    + exfalso. apply (unknown_type_not_incomplete rawCreds). congruence.
    + destruct G as [[G _] | [G _]]; discriminate.
Qed.


(** C8.  In a mode that is neither OAuth2 nor OAuth1 the parser throws the
    unknown-credentials-type error, whose text carries the serialised raw
    payload, and returns no credential, whatever the raw input. *)
Theorem parse_unknown_mode (now : Z) (rawCreds : RawCreds) (authMode : AuthModes) :
  authMode ≠ OAuth2 -> authMode ≠ OAuth1 ->
  parseRawCredentials now rawCreds authMode
  = Thrown (NangoError
              (String.append "Cannot parse credentials, unknown credentials type: "
                 (JSON_stringify rawCreds)) [])
  /\ forall c, parseRawCredentials now rawCreds authMode ≠ Returned c.
Proof.
  intros N2 N1. destruct authMode; try congruence; split; try reflexivity;
    intros c; discriminate.
Qed.

End ParserFacts.

(** C6, counterexample: an OAuth2 input whose [access_token] is present,
    as the empty string, is rejected as incomplete, so the failure is not
    confined to inputs that lack the field. *)
Lemma parse_incomplete_not_only_absent :
  ~ (forall (now : Z) (rawCreds : RawCreds),
       @parseRawCredentials sample_collaborators now rawCreds OAuth2
         = Thrown incomplete_raw_credentials
       <-> rawCreds !! "access_token" = None).
Proof.
  intros C.
  specialize (C 0 (<["access_token" := JStr ""]> ∅)).
  destruct C as [C _].
  specialize (C eq_refl). vm_compute in C. discriminate.
Qed.



Lemma parse_unknown_mode_witness :
  @parseRawCredentials sample_collaborators 0 ∅ Basic
  = Thrown (NangoError
              (String.append "Cannot parse credentials, unknown credentials type: "
                 "{...}") []).
Proof.
  apply (@parse_unknown_mode sample_collaborators 0 ∅ Basic); discriminate.
Defined.

(** ** The store *)

Lemma select_after_delete (cid pck : string) (env : Z) (l : list Connection) :
  filter (fun r => row_matches cid pck env r = true)
    (filter (fun r => row_matches cid pck env r = false) l) = [].
Proof.
  induction l as [| r l IH]; [reflexivity |].
  destruct (row_matches cid pck env r) eqn:E.
  - rewrite filter_cons_False by congruence. exact IH.
  - rewrite filter_cons_True by assumption.
    rewrite filter_cons_False by congruence. exact IH.
Qed.

Lemma select_after_merge (cid pck : string) (env : Z) (f : Connection -> Connection)
    (l : list Connection) :
  (forall r, row_matches cid pck env (f r) = true) ->
  filter (fun r => row_matches cid pck env r = true)
    ((fun r => if row_matches cid pck env r then f r else r) <$> l)
  = f <$> filter (fun r => row_matches cid pck env r = true) l.
Proof.
  intros Hf. induction l as [| r l IH]; [reflexivity |].
  rewrite fmap_cons.
  destruct (row_matches cid pck env r) eqn:E.
  - rewrite !filter_cons_True by (assumption || apply Hf).
    rewrite fmap_cons, IH. reflexivity.
  - rewrite !filter_cons_False by congruence. exact IH.
Qed.

Lemma exists_select (cid pck : string) (env : Z) (d : Db) :
  checkIfConnectionExists cid pck env d = true <-> select_where cid pck env d ≠ [].
Proof.
  unfold checkIfConnectionExists. rewrite negb_true_iff, bool_decide_eq_false. tauto.
Qed.

Section StoreFacts.
Context `{Collaborators}.

(** X1.  Every connection [getConnection] returns is a row of the requested
    triple, so of the caller's environment. *)
Lemma getConnection_scoped (cid pck : string) (env : Z) (d : Db) (c : Connection) :
  getConnection cid pck env d = Returned c ->
  connection_id c = cid /\ provider_config_key c = pck /\ environment_id c = env
  /\ exists row, row ∈ rows d /\ c = with_credentials row (normalise_expiry (credentials row)).
Proof.
  unfold getConnection.
  destruct (String.eqb cid ""); [discriminate |].
  destruct (String.eqb pck ""); [discriminate |].
  destruct (env =? 0); [discriminate |].
  destruct (select_where cid pck env d) as [| row l] eqn:E; [discriminate |].
  intros [= <-].
  assert (Hin : row ∈ select_where cid pck env d) by (rewrite E; left).
  unfold select_where in Hin. apply list_elem_of_filter in Hin as [Hm Hin].
  unfold row_matches in Hm. apply andb_true_iff in Hm as [Hm He].
  apply andb_true_iff in Hm as [Hc Hp].
  apply String.eqb_eq in Hc, Hp. apply Z.eqb_eq in He.
  unfold decryptConnection. simpl. repeat split; try assumption.
  exists row. split; [assumption | reflexivity].
Qed.

(** C9.  [deleteConnection] asks the schedule service to drop the syncs of
    the connection before it deletes the rows; when that request throws, no
    row is deleted.  Once it has returned, [getConnection] on the triple it
    deleted, which is the connection's id with the provider config key and
    the environment of the call (keys that [getConnection] accepts:
    non-empty strings, non-zero environment), throws
    [unknown_connection]. *)
Theorem delete_cancels_then_removes (connection : Connection) (providerConfigKey : string)
    (environment_id : Z) (d : Db) :
  connection_id connection ≠ "" -> providerConfigKey ≠ "" -> environment_id ≠ 0 ->
  effects (deleteConnection connection providerConfigKey environment_id None d)
  = [EffCancelSchedule connection;
     EffDeleteRows (connection_id connection) providerConfigKey environment_id]
  /\ getConnection (connection_id connection) providerConfigKey environment_id
       (db_after (deleteConnection connection providerConfigKey environment_id None d))
     = Thrown (unknown_connection (connection_id connection) providerConfigKey environment_id)
  /\ forall e,
       db_after (deleteConnection connection providerConfigKey environment_id (Some e) d) = d
       /\ effects (deleteConnection connection providerConfigKey environment_id (Some e) d)
          = [EffCancelSchedule connection].
Proof.
  intros Hc Hp He. split; [reflexivity |]. split; [| intros e; split; reflexivity].
  unfold getConnection.
  apply String.eqb_neq in Hc, Hp. rewrite Hc, Hp.
  apply Z.eqb_neq in He. rewrite He.
  unfold select_where. simpl. rewrite select_after_delete. reflexivity.
Qed.

End StoreFacts.


(** [importOAuthConnection] returns for every table. *)
Lemma import_oauth_returns (connection_id provider_config_key provider : string)
    (environmentId accountId : Z) (parsedRawCredentials : ImportedCredentials)
    (syncClient : bool) (d : Db) :
  exists ids,
    result (importOAuthConnection connection_id provider_config_key provider
              environmentId accountId parsedRawCredentials syncClient d) = Returned ids.
Proof.
  unfold importOAuthConnection, upsertConnection.
  destruct (insert_or_merge _ _ d) as [[ids d'] eff]. eexists. reflexivity.
Qed.

(** ** The order of events in the executor *)
















Section CoordinatorFacts.
Context `{Collaborators}.











Lemma run_reachable (d : Db) (schedule : list Action) (w w' : World) :
  reachable d w -> run w schedule = Some w' -> reachable d w'.
Proof.
  revert w. induction schedule as [| a schedule IH]; intros w Hw; simpl.
  - intros [= <-]. exact Hw.
  - destruct (step w a) as [w1 |] eqn:Es; [| discriminate]. simpl.
    apply IH. exact (reach_step _ _ _ _ Hw Es).
Qed.


End CoordinatorFacts.

(** ** The staleness decision *)

Section StaleFacts.
Context `{Collaborators}.



Lemma lookup_set_task (tid : nat) (t : Task) (w : World) :
  (tid < length (tasks w))%nat -> tasks (set_task tid t w) !! tid = Some t.
Proof. intros Hlt. unfold set_task. simpl. apply list_lookup_insert_eq. exact Hlt. Qed.





End StaleFacts.

(** ** The registry scan *)

Lemma find_running_app (cid pck : string) (l l' : list CredentialsRefresh)
    (acc : option CredentialsRefresh) :
  find_running cid pck (l ++ l') acc = find_running cid pck l' (find_running cid pck l acc).
Proof.
  revert acc. induction l as [| r l IH]; intros acc; simpl; [reflexivity | apply IH].
Qed.

Section DedupFacts.
Context `{Collaborators}.

(** A call that finds an entry of its key takes the promise of that entry
    and does nothing else. *)
Lemma enter_joins (tid : nat) (t : Task) (connection : Connection) (now : Z) (w : World)
    (runningRefresh : CredentialsRefresh) :
  find_running (connection_id connection) (provider_config_key connection)
    (runningCredentialsRefreshes w) None = Some runningRefresh ->
  enter tid t connection now w
  = set_task tid (at_pc t (AtPromise (r_promise runningRefresh))) w.
Proof. intros E. unfold enter. rewrite E. reflexivity. Qed.

(** A call without audit context pushes its entry in the segment that
    creates the promise: the next scan for the key finds that promise. *)
Lemma decide_registers_at_once (tid : nat) (t : Task) (connection : Connection)
    (refresh : bool) (now : Z) (w : World) :
  audited (args t) = false ->
  needs_refresh (args t) (credentials connection) refresh now = true ->
  find_running (connection_id connection) (provider_config_key connection)
    (runningCredentialsRefreshes (decide tid t connection refresh now w)) None
  = Some {| r_connectionId := connection_id connection;
            r_providerConfigKey := provider_config_key connection;
            r_promise := length (promises w) |}.
Proof.
  intros Ha Hn. unfold decide. rewrite Hn, Ha. unfold register. simpl.
  rewrite find_running_app. simpl. unfold same_key. simpl.
  rewrite !String.eqb_refl. reflexivity.
Qed.

End DedupFacts.

(** ** The service on concrete schedules *)

Ltac all_ended :=
  repeat (apply List.Forall_cons;
          [first [left; reflexivity | right; eexists; reflexivity] |]);
  apply List.Forall_nil.

(** C1, the registration race.  Two audited calls for the same stale
    connection: the second enters while the first awaits the activity log,
    finds the registry empty and starts a refresh of its own, so two
    refresh requests for the key are out at once.  Run to the end, two
    requests were made, the callers hold different credentials and both
    entries are still registered, each with a promise that is settled. *)
Theorem refresh_race_two_requests :
  (exists w,
     @run sample_collaborators (init_world two_environments) race_start = Some w
     /\ runningCredentialsRefreshes w = []
     /\ in_flight "c1" "slack" w = 2%nat)
  /\ (exists w,
        @run sample_collaborators (init_world two_environments) (race_start ++ race_finish)
          = Some w
        /\ outbound_calls w = 2%nat
        /\ answer_of 0 w
           = Some (Returned (GotCredentials (CredOAuth2 (token "n1" "r1" (Some 4600000)))))
        /\ answer_of 1 w
           = Some (Returned (GotCredentials (CredOAuth2 (token "n2" "r1" (Some 4600000)))))
        /\ runningCredentialsRefreshes w
           = [ {| r_connectionId := "c1"; r_providerConfigKey := "slack"; r_promise := 0 |};
               {| r_connectionId := "c1"; r_providerConfigKey := "slack"; r_promise := 1 |} ]
        /\ Forall (fun t => pc t = ExEnd \/ exists r, pc t = AtEnd r) (tasks w)).
Proof.
  split.
  - eexists. split; [vm_compute; reflexivity |]. split; reflexivity.
  - eexists. split; [vm_compute; reflexivity |].
    do 4 (split; [reflexivity |]). all_ended.
Qed.

(** C4, the late push.  An audited call whose refresh request fails while
    the caller still awaits the activity log: the executor filters a
    registry that does not hold its entry yet and rejects; the caller then
    pushes the entry.  Every task has ended and the entry of the rejected
    promise is registered; a later call for the connection is handed that
    rejection and makes no request. *)
Theorem failed_refresh_stays_registered :
  exists w,
    @run sample_collaborators (init_world two_environments) failed_refresh = Some w
    /\ promises w = [Rejected provider_down]
    /\ Forall (fun t => pc t = ExEnd \/ exists r, pc t = AtEnd r) (tasks w)
    /\ runningCredentialsRefreshes w
       = [ {| r_connectionId := "c1"; r_providerConfigKey := "slack"; r_promise := 0 |} ]
    /\ exists w',
         @run sample_collaborators w later_call = Some w'
         /\ answer_of 2 w' = Some (Thrown provider_down)
         /\ outbound_calls w' = outbound_calls w
         /\ runningCredentialsRefreshes w' = runningCredentialsRefreshes w.
Proof.
  eexists. split; [vm_compute; reflexivity |].
  split; [reflexivity |].
  split; [all_ended |].
  split; [reflexivity |].
  eexists. split; [vm_compute; reflexivity |]. repeat split.
Qed.

(** C2, the registry key.  Environments 1 and 2 each hold a connection
    [c1] of [slack].  While the refresh of environment 1 is registered
    under the pair (c1, slack), [getConnectionCredentials] of environment 2
    reads its own row, finds that entry and waits on it: the connection it
    returns is the row of environment 2 carrying the refreshed credentials
    of environment 1, which are those stored for environment 1 and not
    those stored for environment 2. *)
Theorem cross_environment_credentials :
  exists w c,
    @run sample_collaborators (init_world two_environments) cross_environment = Some w
    /\ answer_of 2 w = Some (Returned (GotConnection c))
    /\ environment_id c = 2
    /\ credentials c = CredOAuth2 (token "n1" "r1" (Some 4600000))
    /\ (exists c1, @getConnection sample_collaborators "c1" "slack" 1 (db w) = Returned c1
                   /\ credentials c1 = credentials c)
    /\ (exists c2, @getConnection sample_collaborators "c1" "slack" 2 (db w) = Returned c2
                   /\ credentials c2 = CredOAuth2 (token "a2" "r2" (Some 999000))
                   /\ credentials c2 ≠ credentials c)
    /\ outbound_calls w = 1%nat.
Proof.
  eexists. eexists. split; [vm_compute; reflexivity |].
  split; [reflexivity |]. split; [reflexivity |]. split; [reflexivity |].
  split; [eexists; split; [vm_compute; reflexivity | reflexivity] |].
  split; [| reflexivity].
  eexists. split; [vm_compute; reflexivity |]. split; [reflexivity | discriminate].
Qed.




Lemma delete_cancels_then_removes_witness :
  @getConnection sample_collaborators "c1" "slack" 1
    (db_after (deleteConnection stale_c1 "slack" 1 None two_environments))
  = Thrown (@unknown_connection sample_collaborators "c1" "slack" 1).
Proof.
  apply (@delete_cancels_then_removes sample_collaborators stale_c1 "slack" 1
           two_environments); vm_compute; discriminate.
Defined.


(** * Further properties of the store *)

Lemma row_matches_triple (cid pck : string) (env : Z) (r : Connection) :
  row_matches cid pck env r = true <-> triple r = (cid, pck, env).
Proof.
  unfold row_matches, triple.
  rewrite !andb_true_iff, !String.eqb_eq, Z.eqb_eq.
  split; [intros [[-> ->] ->]; reflexivity | intros [= -> -> ->]; auto].
Qed.

Lemma row_matches_other (cid pck cid' pck' : string) (env env' : Z) (r : Connection) :
  (cid', pck', env') ≠ (cid, pck, env) ->
  row_matches cid pck env r = true -> row_matches cid' pck' env' r = false.
Proof.
  intros Hne Hm. destruct (row_matches cid' pck' env' r) eqn:E; [| reflexivity].
  apply row_matches_triple in Hm, E. congruence.
Qed.

Lemma select_where_rows (cid pck : string) (env : Z) (l : list Connection) (n : Z) :
  select_where cid pck env {| rows := l; next_id := n |}
  = filter (fun r => row_matches cid pck env r = true) l.
Proof. reflexivity. Qed.

(** The rows of a triple, in a table whose triples are distinct. *)
Lemma unique_select (cid pck : string) (env : Z) (l : list Connection) :
  NoDup (triple <$> l) ->
  (length (filter (fun r => row_matches cid pck env r = true) l) <= 1)%nat.
Proof.
  induction l as [| r l IH]; [simpl; lia |].
  rewrite fmap_cons, NoDup_cons. intros [Hnotin Hnd].
  destruct (row_matches cid pck env r) eqn:E.
  - rewrite filter_cons_True by assumption.
    assert (Hnone : filter (fun r => row_matches cid pck env r = true) l = []).
    { destruct (filter _ l) as [| r' l'] eqn:Ef; [reflexivity |]. exfalso.
      assert (Hin : r' ∈ filter (fun r => row_matches cid pck env r = true) l)
        by (rewrite Ef; left).
      apply list_elem_of_filter in Hin as [Hm Hin].
      apply Hnotin. apply row_matches_triple in E, Hm. rewrite E, <- Hm.
      apply list_elem_of_fmap. exists r'. split; [reflexivity | exact Hin]. }
    rewrite Hnone. simpl. lia.
  - rewrite filter_cons_False by congruence. apply IH, Hnd.
Qed.

(** A rewrite of the rows of one triple leaves the rows of the others. *)
Lemma select_other_after_merge (cid pck cid' pck' : string) (env env' : Z)
    (f : Connection -> Connection) (l : list Connection) :
  (cid', pck', env') ≠ (cid, pck, env) ->
  (forall r, row_matches cid pck env (f r) = true) ->
  filter (fun r => row_matches cid' pck' env' r = true)
    ((fun r => if row_matches cid pck env r then f r else r) <$> l)
  = filter (fun r => row_matches cid' pck' env' r = true) l.
Proof.
  intros Hne Hf. induction l as [| r l IH]; [reflexivity |].
  rewrite fmap_cons.
  destruct (row_matches cid pck env r) eqn:E.
  - rewrite !filter_cons_False; [exact IH | |].
    + rewrite (row_matches_other _ _ _ _ _ _ _ Hne E). discriminate.
    + rewrite (row_matches_other _ _ _ _ _ _ _ Hne (Hf r)). discriminate.
  - destruct (row_matches cid' pck' env' r) eqn:E'.
    + rewrite !filter_cons_True by assumption. rewrite IH. reflexivity.
    + rewrite !filter_cons_False by congruence. exact IH.
Qed.

Lemma triples_after_merge (cid pck : string) (env : Z) (f : Connection -> Connection)
    (l : list Connection) :
  (forall r, row_matches cid pck env (f r) = true) ->
  triple <$> ((fun r => if row_matches cid pck env r then f r else r) <$> l)
  = triple <$> l.
Proof.
  intros Hf. induction l as [| r l IH]; [reflexivity |].
  rewrite !fmap_cons, IH. f_equal.
  destruct (row_matches cid pck env r) eqn:E; [| reflexivity].
  apply row_matches_triple in E. rewrite E. apply row_matches_triple, Hf.
Qed.

Lemma select_none_not_in (cid pck : string) (env : Z) (l : list Connection) :
  filter (fun r => row_matches cid pck env r = true) l = [] ->
  (cid, pck, env) ∉ triple <$> l.
Proof.
  intros E Hin. apply list_elem_of_fmap in Hin as (r & Hr & Hin).
  assert (Hm : r ∈ filter (fun r => row_matches cid pck env r = true) l).
  { apply list_elem_of_filter. split; [| exact Hin]. apply row_matches_triple. auto. }
  rewrite E in Hm. inversion Hm.
Qed.

(** What [insert_or_merge] does, by cases on the rows of the triple. *)
Lemma insert_or_merge_cases (row : Connection) (f : Connection -> Connection) (d : Db) :
  let cid := connection_id row in
  let pck := provider_config_key row in
  let env := environment_id row in
  let fresh := {| id := next_id d; connection_id := cid; provider_config_key := pck;
                  environment_id := env; credentials := credentials row;
                  connection_config := connection_config row;
                  metadata := metadata row |} in
  (select_where cid pck env d = []
   /\ insert_or_merge row f d
      = ([next_id d], {| rows := rows d ++ [fresh]; next_id := next_id d + 1 |},
         [EffInsert fresh]))
  \/ (select_where cid pck env d ≠ []
      /\ insert_or_merge row f d
         = (id <$> select_where cid pck env d,
            {| rows := (fun r => if row_matches cid pck env r then f r else r) <$> rows d;
               next_id := next_id d |},
            EffMerge <$> (f <$> select_where cid pck env d))).
Proof.
  cbn zeta. unfold insert_or_merge.
  destruct (select_where _ _ _ d) as [| hit hits] eqn:E.
  - left. split; reflexivity.
  - right. split; [discriminate | reflexivity].
Qed.

Ltac insert_or_merge_split d :=
  match goal with
  | |- context [insert_or_merge ?row ?f d] =>
      let E := fresh "E" in
      let Ei := fresh "Ei" in
      destruct (insert_or_merge_cases row f d) as [[E Ei] | [E Ei]];
      cbn zeta in E, Ei; simpl in E, Ei; rewrite Ei; clear Ei; simpl
  end.

Section StoreRoundTrips.
Context `{Collaborators}.

Lemma getConnection_first (cid pck : string) (env : Z) (d : Db) (r : Connection)
    (l : list Connection) :
  cid ≠ "" -> pck ≠ "" -> env ≠ 0 ->
  select_where cid pck env d = r :: l ->
  getConnection cid pck env d
  = Returned (with_credentials r (normalise_expiry (credentials r))).
Proof.
  intros Hc Hp He E. unfold getConnection.
  apply String.eqb_neq in Hc, Hp. apply Z.eqb_neq in He.
  rewrite Hc, Hp, He, E. reflexivity.
Qed.

Lemma getConnection_none (cid pck : string) (env : Z) (d : Db) :
  cid ≠ "" -> pck ≠ "" -> env ≠ 0 ->
  select_where cid pck env d = [] ->
  getConnection cid pck env d = Thrown (unknown_connection cid pck env).
Proof.
  intros Hc Hp He E. unfold getConnection.
  apply String.eqb_neq in Hc, Hp. apply Z.eqb_neq in He.
  rewrite Hc, Hp, He, E. reflexivity.
Qed.

(** X2.  Write, then read: after [upsertConnection] on any table,
    [getConnection] with the same keys returns a connection with the
    written credentials (expiry re-parsed), connection config and metadata,
    whose id is one of those the upsert returned. *)
Theorem upsert_then_get (connectionId providerConfigKey provider : string)
    (parsedRawCredentials : AuthCredentials) (connectionConfig : option JsonMap)
    (environment_id accountId : Z) (metadata : option JsonMap) (d : Db) :
  connectionId ≠ "" -> providerConfigKey ≠ "" -> environment_id ≠ 0 ->
  exists c,
    getConnection connectionId providerConfigKey environment_id
      (upsertConnection connectionId providerConfigKey provider parsedRawCredentials
         connectionConfig environment_id accountId metadata d).1.2
    = Returned c
    /\ credentials c = normalise_expiry parsedRawCredentials
    /\ connection_config c = connectionConfig
    /\ meta_of c = metadata
    /\ id c ∈ (upsertConnection connectionId providerConfigKey provider
                 parsedRawCredentials connectionConfig environment_id accountId
                 metadata d).1.1.
Proof.
  intros Hc Hp He. unfold upsertConnection, encryptConnection.
  insert_or_merge_split d.
  - eexists. split.
    + eapply getConnection_first; try assumption.
      unfold select_where in *. simpl. rewrite filter_app, E. simpl.
      rewrite filter_cons_True;
        [reflexivity | unfold row_matches; simpl;
                       rewrite !String.eqb_refl, Z.eqb_refl; reflexivity].
    + simpl. repeat split. left.
  - destruct (select_where connectionId providerConfigKey environment_id d)
      as [| hit hits] eqn:Es; [congruence |].
    eexists. split.
    + eapply getConnection_first; try assumption.
      unfold select_where in *. simpl.
      rewrite select_after_merge, Es; [reflexivity |].
      intros r. unfold row_matches. simpl.
      rewrite !String.eqb_refl, Z.eqb_refl. reflexivity.
    + simpl. repeat split. left.
Qed.

End StoreRoundTrips.

(** X3.  The uniqueness of the triple survives an upsert: in a table whose
    triples are distinct, after [upsertConnection] the triples are still
    distinct and the written triple has exactly one row. *)
Theorem upsert_keeps_unique (connectionId providerConfigKey provider : string)
    (parsedRawCredentials : AuthCredentials) (connectionConfig : option JsonMap)
    (environment_id accountId : Z) (metadata : option JsonMap) (d : Db) :
  NoDup (triple <$> rows d) ->
  NoDup (triple <$> rows (upsertConnection connectionId providerConfigKey provider
                            parsedRawCredentials connectionConfig environment_id
                            accountId metadata d).1.2)
  /\ length (select_where connectionId providerConfigKey environment_id
               (upsertConnection connectionId providerConfigKey provider
                  parsedRawCredentials connectionConfig environment_id accountId
                  metadata d).1.2) = 1%nat.
Proof.
  intros Hnd. unfold upsertConnection, encryptConnection.
  insert_or_merge_split d.
  - split.
    + rewrite fmap_app. apply NoDup_app. split; [exact Hnd |]. split.
      * intros k Hk Hk'. apply list_elem_of_singleton in Hk'. subst k.
        revert Hk. apply select_none_not_in. exact E.
      * apply NoDup_singleton.
    + unfold select_where in *. simpl. rewrite filter_app, E. simpl.
      rewrite filter_cons_True; [reflexivity |].
      unfold row_matches. simpl. rewrite !String.eqb_refl, Z.eqb_refl. reflexivity.
  - assert (Hf : forall r,
      row_matches connectionId providerConfigKey environment_id
        {| id := id r; connection_id := connectionId;
           provider_config_key := providerConfigKey;
           environment_id := environment_id; credentials := parsedRawCredentials;
           connection_config := connectionConfig; metadata := metadata |} = true).
    { intros r. unfold row_matches. simpl.
      rewrite !String.eqb_refl, Z.eqb_refl. reflexivity. }
    split.
    + rewrite triples_after_merge by exact Hf. exact Hnd.
    + unfold select_where in *. simpl. rewrite select_after_merge by exact Hf.
      rewrite length_fmap.
      pose proof (unique_select connectionId providerConfigKey environment_id
                    (rows d) Hnd) as Hle.
      destruct (filter _ (rows d)) as [| x [| y l]]; simpl in *; [congruence | reflexivity | lia].
Qed.

(** X4.  An upsert touches one triple only: the rows of every other triple
    are the same before and after [upsertConnection]. *)
Theorem upsert_leaves_others (connectionId providerConfigKey provider : string)
    (parsedRawCredentials : AuthCredentials) (connectionConfig : option JsonMap)
    (environment_id accountId : Z) (metadata : option JsonMap) (d : Db)
    (cid' pck' : string) (env' : Z) :
  (cid', pck', env') ≠ (connectionId, providerConfigKey, environment_id) ->
  select_where cid' pck' env'
    (upsertConnection connectionId providerConfigKey provider parsedRawCredentials
       connectionConfig environment_id accountId metadata d).1.2
  = select_where cid' pck' env' d.
Proof.
  intros Hne. unfold upsertConnection, encryptConnection.
  insert_or_merge_split d.
  - unfold select_where. simpl. rewrite filter_app.
    rewrite filter_cons_False, filter_nil, app_nil_r; [reflexivity |].
    intros Hm. apply row_matches_triple in Hm. unfold triple in Hm. simpl in Hm.
    congruence.
  - unfold select_where. simpl. apply select_other_after_merge; [exact Hne |].
    intros r. unfold row_matches. simpl.
    rewrite !String.eqb_refl, Z.eqb_refl. reflexivity.
Qed.


(** X6.  [importApiAuthConnection] on a triple without a row inserts one
    row under the next serial id, with the given credentials, an empty
    connection config and no metadata, starts the sync of that id when a
    sync client exists, and returns the id; the same import on the
    resulting table throws [connection_already_exists]. *)
Theorem import_api_fresh (connection_id provider_config_key provider : string)
    (environmentId accountId : Z) (credentials : AuthCredentials) (syncClient : bool)
    (d : Db) :
  checkIfConnectionExists connection_id provider_config_key environmentId d = false ->
  let r := importApiAuthConnection connection_id provider_config_key provider
             environmentId accountId credentials syncClient d in
  let row := {| id := next_id d; connection_id := connection_id;
                provider_config_key := provider_config_key;
                environment_id := environmentId; credentials := credentials;
                connection_config := Some ∅; metadata := None |} in
  result r = Returned [next_id d]
  /\ db_after r = {| rows := rows d ++ [row]; next_id := next_id d + 1 |}
  /\ effects r
     = [EffInsert row; EffTrack "server:connection_upserted" accountId]
       ++ (if syncClient then [EffSyncInitiate (next_id d)] else [])
  /\ result (importApiAuthConnection connection_id provider_config_key provider
               environmentId accountId credentials syncClient (db_after r))
     = Thrown connection_already_exists.
Proof.
  intros Hex. cbn zeta.
  assert (Hsel : select_where connection_id provider_config_key environmentId d = []).
  { unfold checkIfConnectionExists in Hex.
    apply negb_false_iff, bool_decide_eq_true in Hex. exact Hex. }
  assert (Hr : importApiAuthConnection connection_id provider_config_key provider
                 environmentId accountId credentials syncClient d
               = {| result := Returned [next_id d];
                    db_after :=
                      {| rows := rows d ++
                           [{| id := next_id d; connection_id := connection_id;
                               provider_config_key := provider_config_key;
                               environment_id := environmentId;
                               credentials := credentials;
                               connection_config := Some ∅; metadata := None |}];
                         next_id := next_id d + 1 |};
                    effects :=
                      [EffInsert {| id := next_id d; connection_id := connection_id;
                                    provider_config_key := provider_config_key;
                                    environment_id := environmentId;
                                    credentials := credentials;
                                    connection_config := Some ∅; metadata := None |};
                       EffTrack "server:connection_upserted" accountId]
                      ++ (if syncClient then [EffSyncInitiate (next_id d)] else []) |}).
  { unfold importApiAuthConnection. rewrite Hex.
    unfold upsertApiConnection, encryptConnection.
    insert_or_merge_split d; [| congruence]. destruct syncClient; reflexivity. }
  rewrite Hr. simpl.
  split; [reflexivity |]. split; [reflexivity |]. split; [reflexivity |].
  unfold importApiAuthConnection.
  match goal with
  | |- context [checkIfConnectionExists ?a ?b ?c ?dd] =>
      assert (Hnow : checkIfConnectionExists a b c dd = true)
  end.
  { apply exists_select. unfold select_where in *. simpl.
    rewrite filter_app, Hsel. simpl.
    rewrite filter_cons_True; [discriminate |].
    unfold row_matches. simpl. rewrite !String.eqb_refl, Z.eqb_refl. reflexivity. }
  rewrite Hnow. reflexivity.
Qed.

Lemma update_select_own (connection : Connection) (d : Db) :
  select_where (connection_id connection) (provider_config_key connection)
    (environment_id connection) (updateConnection connection d)
  = (fun _ => connection)
    <$> select_where (connection_id connection) (provider_config_key connection)
          (environment_id connection) d.
Proof.
  unfold updateConnection, encryptConnection, select_where. simpl.
  apply (select_after_merge _ _ _ (fun _ => connection)).
  intros _. apply row_matches_triple. reflexivity.
Qed.

(** X7.  [updateConnection] neither adds nor removes a row and moves none
    to another triple; it rewrites the rows of the connection's triple with
    the connection and leaves every other row as it is, so on a table that
    has no row of that triple it changes nothing. *)
Theorem update_frame (connection : Connection) (d : Db) :
  triple <$> rows (updateConnection connection d) = triple <$> rows d
  /\ next_id (updateConnection connection d) = next_id d
  /\ (forall cid pck env,
        (cid, pck, env) ≠ triple connection ->
        select_where cid pck env (updateConnection connection d)
        = select_where cid pck env d)
  /\ select_where (connection_id connection) (provider_config_key connection)
       (environment_id connection) (updateConnection connection d)
     = (fun _ => connection)
       <$> select_where (connection_id connection) (provider_config_key connection)
             (environment_id connection) d
  /\ (checkIfConnectionExists (connection_id connection) (provider_config_key connection)
        (environment_id connection) d = false ->
      rows (updateConnection connection d) = rows d).
Proof.
  assert (Hf : forall r : Connection,
            row_matches (connection_id connection) (provider_config_key connection)
              (environment_id connection) connection = true).
  { intros _. apply row_matches_triple. reflexivity. }
  unfold updateConnection, encryptConnection. simpl.
  split; [apply (triples_after_merge _ _ _ (fun _ => connection)); exact Hf |].
  split; [reflexivity |].
  split; [intros cid pck env Hne; unfold select_where; simpl;
          apply (select_other_after_merge _ _ _ _ _ _ (fun _ => connection));
          assumption |].
  split; [apply (update_select_own connection d) |].
  intros Hex.
  assert (Hsel : select_where (connection_id connection) (provider_config_key connection)
                   (environment_id connection) d = []).
  { unfold checkIfConnectionExists in Hex.
    apply negb_false_iff, bool_decide_eq_true in Hex. exact Hex. }
  unfold select_where in Hsel.
  induction (rows d) as [| r l IH]; [reflexivity |].
  rewrite fmap_cons.
  destruct (row_matches _ _ _ r) eqn:E.
  - rewrite filter_cons_True in Hsel by assumption. discriminate.
  - rewrite filter_cons_False in Hsel by congruence. rewrite IH by assumption.
    reflexivity.
Qed.

Section StoreReads.
Context `{Collaborators}.

(** X8.  A refreshed connection can be read back: when the triple of
    [connection] has a row, after [updateConnection] the read of that
    triple returns the connection itself, its OAuth2 expiry re-parsed. *)
Theorem update_then_get (connection : Connection) (d : Db) :
  connection_id connection ≠ "" -> provider_config_key connection ≠ "" ->
  environment_id connection ≠ 0 ->
  checkIfConnectionExists (connection_id connection) (provider_config_key connection)
    (environment_id connection) d = true ->
  getConnection (connection_id connection) (provider_config_key connection)
    (environment_id connection) (updateConnection connection d)
  = Returned (with_credentials connection (normalise_expiry (credentials connection))).
Proof.
  intros Hc Hp He Hex. apply exists_select in Hex.
  pose proof (update_select_own connection d) as Hs.
  destruct (select_where _ _ _ d) as [| hit hits] eqn:E; [congruence |].
  eapply getConnection_first; try assumption. rewrite Hs. reflexivity.
Qed.

(** X9.  Existence and read agree: for keys that pass the presence
    checks, [checkIfConnectionExists] is true exactly when [getConnection]
    returns a connection, and false exactly when it throws
    [unknown_connection]. *)
Theorem exists_iff_get (connectionId providerConfigKey : string) (environment_id : Z)
    (d : Db) :
  connectionId ≠ "" -> providerConfigKey ≠ "" -> environment_id ≠ 0 ->
  (checkIfConnectionExists connectionId providerConfigKey environment_id d = true
   <-> exists c, getConnection connectionId providerConfigKey environment_id d = Returned c)
  /\ (checkIfConnectionExists connectionId providerConfigKey environment_id d = false
      <-> getConnection connectionId providerConfigKey environment_id d
          = Thrown (unknown_connection connectionId providerConfigKey environment_id)).
Proof.
  intros Hc Hp He.
  destruct (select_where connectionId providerConfigKey environment_id d)
    as [| hit hits] eqn:E.
  - rewrite (getConnection_none _ _ _ _ Hc Hp He E).
    assert (Hex : checkIfConnectionExists connectionId providerConfigKey environment_id d
                  = false).
    { unfold checkIfConnectionExists. rewrite E. reflexivity. }
    rewrite Hex. split; split; try reflexivity; try discriminate.
    intros [c Hcx]. discriminate.
  - rewrite (getConnection_first _ _ _ _ _ _ Hc Hp He E).
    assert (Hex : checkIfConnectionExists connectionId providerConfigKey environment_id d
                  = true).
    { apply exists_select. rewrite E. discriminate. }
    rewrite Hex. split; split; try discriminate; eauto.
Qed.

(** X10.  The presence checks of [getConnection] come first and in a fixed
    order, before the table is read: an empty connection id gives
    [missing_connection] whatever the other keys; otherwise an empty
    provider config key gives [missing_provider_config]; otherwise
    environment 0 gives [missing_environment]; and these results are the
    same on every table. *)
Theorem get_missing_keys (connectionId providerConfigKey : string) (environment_id : Z)
    (d d' : Db) :
  (connectionId = "" ->
   getConnection connectionId providerConfigKey environment_id d
   = Thrown (NangoError "missing_connection" []))
  /\ (connectionId ≠ "" -> providerConfigKey = "" ->
      getConnection connectionId providerConfigKey environment_id d
      = Thrown (NangoError "missing_provider_config" []))
  /\ (connectionId ≠ "" -> providerConfigKey ≠ "" -> environment_id = 0 ->
      getConnection connectionId providerConfigKey environment_id d
      = Thrown (NangoError "missing_environment" []))
  /\ (connectionId = "" \/ providerConfigKey = "" \/ environment_id = 0 ->
      getConnection connectionId providerConfigKey environment_id d
      = getConnection connectionId providerConfigKey environment_id d').
Proof.
  unfold getConnection. repeat split.
  - intros ->. reflexivity.
  - intros Hc ->. apply String.eqb_neq in Hc. rewrite Hc. reflexivity.
  - intros Hc Hp ->. apply String.eqb_neq in Hc, Hp. rewrite Hc, Hp. reflexivity.
  - intros Hm.
    destruct (String.eqb connectionId "") eqn:Ec; [reflexivity |].
    destruct (String.eqb providerConfigKey "") eqn:Ep; [reflexivity |].
    destruct (environment_id =? 0) eqn:Ee; [reflexivity |].
    apply String.eqb_neq in Ec, Ep. apply Z.eqb_neq in Ee.
    destruct Hm as [? | [? | ?]]; congruence.
Qed.

End StoreReads.

(** X11.  [deleteConnection] removes the rows of one triple and nothing
    else: the number it returns is the number of rows that went, the rows
    that stay keep their order, no row of the triple is left, and the rows
    of every other triple are as before. *)
Theorem delete_frame (connection : Connection) (providerConfigKey : string)
    (environment_id : Z) (d : Db) :
  let r := deleteConnection connection providerConfigKey environment_id None d in
  (exists n, result r = Returned (Z.of_nat n)
             /\ (n + length (rows (db_after r)) = length (rows d))%nat)
  /\ rows (db_after r) `sublist_of` rows d
  /\ checkIfConnectionExists (connection_id connection) providerConfigKey environment_id
       (db_after r) = false
  /\ (forall cid pck env,
        (cid, pck, env) ≠ (connection_id connection, providerConfigKey, environment_id) ->
        select_where cid pck env (db_after r) = select_where cid pck env d).
Proof.
  cbn zeta. unfold deleteConnection. simpl.
  split; [| split; [| split]].
  - eexists. split; [reflexivity |].
    unfold select_where.
    generalize (connection_id connection). intros cid.
    induction (rows d) as [| r l IH]; [reflexivity |].
    destruct (row_matches cid providerConfigKey environment_id r) eqn:E.
    + rewrite filter_cons_True by assumption.
      rewrite filter_cons_False by congruence. simpl. lia.
    + rewrite filter_cons_False by congruence.
      rewrite filter_cons_True by assumption. simpl. lia.
  - apply sublist_filter.
  - unfold checkIfConnectionExists, select_where. simpl.
    rewrite select_after_delete. reflexivity.
  - intros cid pck env Hne. unfold select_where. simpl.
    induction (rows d) as [| r l IH]; [reflexivity |].
    destruct (row_matches (connection_id connection) providerConfigKey environment_id r)
      eqn:E.
    + rewrite filter_cons_False by congruence.
      rewrite (filter_cons_False _ r l); [exact IH |].
      rewrite (row_matches_other _ _ _ _ _ _ _ Hne E). discriminate.
    + rewrite filter_cons_True by assumption.
      destruct (row_matches cid pck env r) eqn:E'.
      * rewrite !filter_cons_True by assumption. rewrite IH. reflexivity.
      * rewrite !filter_cons_False by congruence. exact IH.
Qed.

(** X12.  [getConnectionsByEnvironmentAndConfig] returns exactly the rows
    of the given environment and provider config key, as id, connection id,
    key and environment; no row of another environment is among them. *)
Theorem connections_of_environment_and_config (environment_id : Z)
    (providerConfigKey : string) (d : Db) (nc : NangoConnection) :
  nc ∈ getConnectionsByEnvironmentAndConfig environment_id providerConfigKey d
  <-> exists r, r ∈ rows d /\ env_of r = environment_id
                /\ provider_config_key r = providerConfigKey
                /\ nc = to_NangoConnection r.
Proof.
  unfold getConnectionsByEnvironmentAndConfig.
  assert (Hsame : forall l : list NangoConnection,
            match l with [] => [] | _ :: _ => l end = l) by (intros [| ? ?]; reflexivity).
  rewrite Hsame, list_elem_of_fmap. split.
  - intros (r & -> & Hin). apply list_elem_of_filter in Hin as [Hm Hin].
    apply andb_true_iff in Hm as [He Hp].
    apply Z.eqb_eq in He. apply String.eqb_eq in Hp. eauto.
  - intros (r & Hin & He & Hp & ->). exists r. split; [reflexivity |].
    apply list_elem_of_filter. split; [| exact Hin].
    apply andb_true_iff. split; [apply Z.eqb_eq | apply String.eqb_eq]; assumption.
Qed.

(** X13.  [listConnections] lists rows of the given environment only; a
    non-empty connection id narrows the list to the rows of that id, while
    an empty one is ignored like a missing one; without a connection id
    every row of the environment is listed. *)
Theorem list_connections_scoped (environment_id : Z) (connectionId : option string)
    (d : Db) :
  (forall s, s ∈ listConnections environment_id connectionId d ->
     exists r, r ∈ rows d /\ env_of r = environment_id /\ s = to_summary r
               /\ forall c, connectionId = Some c -> c ≠ "" -> connection_id r = c)
  /\ (forall r c, r ∈ rows d -> env_of r = environment_id -> connection_id r = c ->
        to_summary r ∈ listConnections environment_id (Some c) d)
  /\ listConnections environment_id (Some "") d = listConnections environment_id None d
  /\ (forall r, r ∈ rows d -> env_of r = environment_id ->
        to_summary r ∈ listConnections environment_id None d).
Proof.
  unfold listConnections. repeat split.
  - intros s Hs. apply list_elem_of_fmap in Hs as (r & -> & Hin).
    destruct connectionId as [c |].
    + destruct (String.eqb c "") eqn:Ec.
      * apply list_elem_of_filter in Hin as [He Hin]. apply Z.eqb_eq in He.
        exists r. repeat split; try assumption.
        intros c' [= <-] Hne. apply String.eqb_neq in Hne. congruence.
      * apply list_elem_of_filter in Hin as [Hc Hin].
        apply list_elem_of_filter in Hin as [He Hin].
        apply Z.eqb_eq in He. apply String.eqb_eq in Hc.
        exists r. repeat split; try assumption. intros c' [= <-] _. exact Hc.
    + apply list_elem_of_filter in Hin as [He Hin]. apply Z.eqb_eq in He.
      exists r. repeat split; try assumption. intros c' [=].
  - intros r c Hin He Hc. apply list_elem_of_fmap. exists r. split; [reflexivity |].
    assert (Henv : r ∈ filter (fun r => (env_of r =? environment_id) = true) (rows d)).
    { apply list_elem_of_filter. split; [apply Z.eqb_eq |]; assumption. }
    destruct (String.eqb c ""); [exact Henv |].
    apply list_elem_of_filter. split; [apply String.eqb_eq |]; assumption.
  - intros r Hin He. apply list_elem_of_fmap. exists r. split; [reflexivity |].
    apply list_elem_of_filter. split; [apply Z.eqb_eq |]; assumption.
Qed.

(** * Further properties of the coordinator *)

(** ** Lists of optional tags under an in-place update *)

Lemma omap_insert_same {A B : Type} (f : A -> option B) (l : list A) (i : nat) (x y : A) :
  l !! i = Some x -> f y = f x -> omap f (<[i := y]> l) = omap f l.
Proof.
  intros Hi Hf.
  rewrite (insert_take_drop l i y) by (eapply lookup_lt_Some; eassumption).
  pose proof (take_drop_middle l i x Hi) as Hd.
  set (l1 := take i l) in *. set (l2 := drop (S i) l) in *. clearbody l1 l2. subst l.
  rewrite !omap_app. simpl. rewrite Hf. reflexivity.
Qed.

Lemma omap_insert_drop {A B : Type} (f : A -> option B) (l : list A) (i : nat) (x y : A)
    (b : B) :
  l !! i = Some x -> f x = Some b -> f y = None -> NoDup (omap f l) ->
  NoDup (omap f (<[i := y]> l))
  /\ (b ∉ omap f (<[i := y]> l))
  /\ (forall c, c ∈ omap f (<[i := y]> l) -> c ∈ omap f l).
Proof.
  intros Hi Hx Hy.
  rewrite (insert_take_drop l i y) by (eapply lookup_lt_Some; eassumption).
  pose proof (take_drop_middle l i x Hi) as Hd.
  set (l1 := take i l) in *. set (l2 := drop (S i) l) in *. clearbody l1 l2. subst l.
  rewrite !omap_app. simpl. rewrite Hx, Hy.
  intros Hnd. apply NoDup_app in Hnd as (Hl & Hlr & Hr).
  apply NoDup_cons in Hr as [Hb Hr].
  split; [| split].
  - apply NoDup_app. split; [exact Hl |]. split; [| exact Hr].
    intros c Hc Hc'. apply (Hlr c Hc). right. exact Hc'.
  - intros Hin. apply elem_of_app in Hin as [Hin | Hin]; [| exact (Hb Hin)].
    apply (Hlr b Hin). left.
  - intros c Hin. apply elem_of_app in Hin as [Hin | Hin]; apply elem_of_app;
      [left; exact Hin | right; right; exact Hin].
Qed.

(** ** The invariant of promises and executors *)

Lemma Wf_set_task_same (tid : nat) (t t' : Task) (w : World) :
  Wf w -> tasks w !! tid = Some t ->
  exec_of (pc t') = exec_of (pc t) ->
  (forall p, awaited_of (pc t') = Some p -> (p < length (promises w))%nat) ->
  Wf (set_task tid t' w).
Proof.
  intros [Ho Hr Ha Hp Hd] Ht He Haw. split; try assumption; simpl.
  - apply Forall_insert; assumption.
  - unfold executors in *. simpl.
    rewrite (omap_insert_same _ _ _ t t') by assumption. exact Hp.
  - unfold executors in *. simpl.
    rewrite (omap_insert_same _ _ _ t t') by assumption. exact Hd.
Qed.

(** An executor leaves without settling its promise. *)
Lemma Wf_set_task_drop (tid : nat) (t t' : Task) (p : nat) (w : World) :
  Wf w -> tasks w !! tid = Some t ->
  exec_of (pc t) = Some p -> exec_of (pc t') = None -> awaited_of (pc t') = None ->
  Wf (set_task tid t' w).
Proof.
  intros [Ho Hr Ha Hp Hd] Ht He He' Haw.
  destruct (omap_insert_drop (fun t => exec_of (pc t)) (tasks w) tid t t' p
              Ht He He' Hd) as (Hnd & _ & Hsub).
  split; try assumption; simpl.
  - apply Forall_insert; [assumption |]. intros q Hq. congruence.
  - unfold executors in *. simpl. apply Forall_forall. intros q Hq.
    rewrite Forall_forall in Hp. apply Hp, Hsub, Hq.
Qed.

Lemma outbound_calls_emit (ev : Event) (w : World) :
  outbound_calls (emit ev w)
  = if is_outbound ev then S (outbound_calls w) else outbound_calls w.
Proof.
  unfold outbound_calls, emit. cbn [history].
  destruct (is_outbound ev) eqn:E.
  - rewrite filter_cons_True by assumption. reflexivity.
  - rewrite filter_cons_False by congruence. reflexivity.
Qed.

Lemma Wf_emit (ev : Event) (w : World) :
  Wf w -> is_outbound ev = false -> Wf (emit ev w).
Proof.
  intros [Ho Hr Ha Hp Hd] Hev. split; try assumption.
  rewrite outbound_calls_emit, Hev. exact Ho.
Qed.

Lemma Wf_set_db (d : Db) (w : World) : Wf w -> Wf (set_db d w).
Proof. intros [Ho Hr Ha Hp Hd]. split; assumption. Qed.

Lemma Wf_push (refresh : CredentialsRefresh) (w : World) :
  Wf w -> (r_promise refresh < length (promises w))%nat ->
  Wf (set_registry (runningCredentialsRefreshes w ++ [refresh]) w).
Proof.
  intros [Ho Hr Ha Hp Hd] Hlt. split; try assumption. simpl.
  apply Forall_app. split; [assumption | repeat constructor; assumption].
Qed.

Lemma Wf_filter (cid pck : string) (w : World) :
  Wf w -> Wf (set_registry (remove_key cid pck (runningCredentialsRefreshes w)) w).
Proof.
  intros [Ho Hr Ha Hp Hd]. split; try assumption. simpl.
  unfold remove_key. apply Forall_forall. intros r Hin.
  apply list_elem_of_filter in Hin as [_ Hin].
  rewrite Forall_forall in Hr. apply Hr, Hin.
Qed.

(** The executor of [p] settles [p] and ends. *)
Lemma Wf_settle (tid : nat) (t t' : Task) (p : nat) (s : Settled) (w : World) :
  Wf w -> tasks w !! tid = Some t ->
  exec_of (pc t) = Some p -> exec_of (pc t') = None -> awaited_of (pc t') = None ->
  Wf (set_task tid t' (settle p s w)).
Proof.
  intros [Ho Hr Ha Hp Hd] Ht He He' Haw.
  destruct (omap_insert_drop (fun t => exec_of (pc t)) (tasks w) tid t t' p
              Ht He He' Hd) as (Hnd & Hnot & Hsub).
  split; simpl.
  - rewrite length_insert. exact Ho.
  - rewrite length_insert. exact Hr.
  - rewrite length_insert. apply Forall_insert; [assumption |]. intros q Hq. congruence.
  - unfold executors in *. simpl. apply Forall_forall. intros q Hq.
    rewrite Forall_forall in Hp.
    rewrite list_lookup_insert_ne; [apply Hp, Hsub, Hq |].
    intros ->. exact (Hnot Hq).
  - exact Hnd.
Qed.

(** A refresh starts: a new pending promise, its executor and its
    outbound request. *)
Lemma Wf_start (executor : Task) (cid pck : string) (w : World) :
  Wf w -> exec_of (pc executor) = Some (length (promises w)) ->
  awaited_of (pc executor) = None ->
  Wf (emit (EvOutbound (length (promises w)) cid pck)
        (fork executor (set_promises (promises w ++ [Pending]) w))).
Proof.
  intros [Ho Hr Ha Hp Hd] He Haw. split; simpl.
  - rewrite outbound_calls_emit. cbn [is_outbound].
    change (outbound_calls (fork executor (set_promises (promises w ++ [Pending]) w)))
      with (outbound_calls w).
    rewrite length_app. simpl. lia.
  - rewrite length_app. eapply Forall_impl; [exact Hr |]. simpl. intros; lia.
  - rewrite length_app. apply Forall_app. split.
    + eapply Forall_impl; [exact Ha |]. simpl. intros t Ht p Hq.
      specialize (Ht p Hq). lia.
    + repeat constructor. intros q Hq. congruence.
  - unfold executors in *. simpl. rewrite omap_app. simpl. rewrite He. simpl.
    apply Forall_app. split.
    + eapply Forall_impl; [exact Hp |]. simpl. intros q Hq.
      rewrite lookup_app_l; [exact Hq | eapply lookup_lt_Some; exact Hq].
    + repeat constructor. rewrite lookup_app_r by lia.
      rewrite Nat.sub_diag. reflexivity.
  - unfold executors in *. simpl. rewrite omap_app. simpl. rewrite He. simpl.
    apply NoDup_app. split; [exact Hd |]. split; [| apply NoDup_singleton].
    intros q Hq Hq'. apply list_elem_of_singleton in Hq'. subst q.
    rewrite Forall_forall in Hp. specialize (Hp _ Hq).
    apply lookup_lt_Some in Hp. lia.
Qed.

Lemma tasks_emit (ev : Event) (w : World) : tasks (emit ev w) = tasks w.
Proof. reflexivity. Qed.

Lemma find_running_in (cid pck : string) (l : list CredentialsRefresh)
    (acc : option CredentialsRefresh) (r : CredentialsRefresh) :
  find_running cid pck l acc = Some r -> r ∈ l \/ acc = Some r.
Proof.
  revert acc. induction l as [| x l IH]; intros acc; simpl; [auto |].
  intros E. destruct (IH _ E) as [Hin | Hacc]; [left; right; exact Hin |].
  destruct (same_key cid pck x); [injection Hacc as ->; left; left | right; exact Hacc].
Qed.

Section WfFacts.
Context `{Collaborators}.

Lemma Wf_finish (tid : nat) (t0 t : Task) (r : Outcome Answer) (w : World) :
  Wf w -> tasks w !! tid = Some t0 -> exec_of (pc t0) = None ->
  Wf (finish tid t r w).
Proof.
  intros Hw Ht He. unfold finish.
  apply (Wf_set_task_same tid t0); try assumption; [simpl; congruence | discriminate].
Qed.

Lemma Wf_register (tid : nat) (t0 t : Task) (c : Connection) (p : nat) (w : World) :
  Wf w -> tasks w !! tid = Some t0 -> exec_of (pc t0) = None ->
  (p < length (promises w))%nat ->
  Wf (register tid t c p w).
Proof.
  intros Hw Ht He Hp. unfold register.
  apply (Wf_set_task_same tid t0).
  - apply Wf_emit; [| reflexivity]. apply Wf_push; assumption.
  - exact Ht.
  - simpl. congruence.
  - simpl. intros q [= <-]. exact Hp.
Qed.

Lemma Wf_decide (tid : nat) (t0 t : Task) (c : Connection) (refresh : bool) (now : Z)
    (w : World) :
  Wf w -> tasks w !! tid = Some t0 -> exec_of (pc t0) = None ->
  Wf (decide tid t c refresh now w).
Proof.
  intros Hw Ht He. unfold decide.
  destruct (needs_refresh _ _ _ _); [| eapply Wf_finish; eassumption].
  match goal with
  | |- context [fork ?ex _] =>
      assert (Hstart : Wf (emit (EvOutbound (length (promises w)) (connection_id c)
                                   (provider_config_key c))
                             (fork ex (set_promises (promises w ++ [Pending]) w))))
  end.
  { apply Wf_start; [assumption | |];
      destruct (shouldUseProviderClient _); reflexivity. }
  assert (Ht' : forall ex ev,
            tasks (emit ev (fork ex (set_promises (promises w ++ [Pending]) w))) !! tid
            = Some t0).
  { intros ex ev. simpl. rewrite lookup_app_l; [exact Ht |].
    eapply lookup_lt_Some; exact Ht. }
  destruct (audited (args t)).
  - apply (Wf_set_task_same tid t0); try assumption.
    + apply Ht'.
    + simpl. congruence.
    + simpl. intros q [= <-]. rewrite length_app. simpl. lia.
  - apply (Wf_register tid t0); try assumption.
    + apply Ht'.
    + simpl. rewrite length_app. simpl. lia.
Qed.

Lemma Wf_enter (tid : nat) (t0 t : Task) (c : Connection) (now : Z) (w : World) :
  Wf w -> tasks w !! tid = Some t0 -> exec_of (pc t0) = None ->
  Wf (enter tid t c now w).
Proof.
  intros Hw Ht He. unfold enter.
  destruct (find_running _ _ _ _) as [r |] eqn:Ef.
  - apply (Wf_set_task_same tid t0); try assumption; [simpl; congruence |].
    simpl. intros q [= <-].
    apply find_running_in in Ef as [Hin | ?]; [| discriminate].
    destruct Hw as [_ Hr _ _ _]. rewrite Forall_forall in Hr. apply Hr, Hin.
  - destruct (instantRefresh _); [eapply Wf_decide; eassumption |].
    destruct (shouldIntrospectToken _); [| eapply Wf_decide; eassumption].
    apply (Wf_set_task_same tid t0); try assumption; [simpl; congruence | discriminate].
Qed.

Lemma Wf_unregister (p : nat) (c : Connection) (w : World) :
  Wf w -> Wf (unregister p c w).
Proof. intros Hw. unfold unregister. apply Wf_emit; [apply Wf_filter, Hw | reflexivity]. Qed.

Lemma Wf_reject (tid : nat) (t0 t : Task) (p : nat) (e : Exn) (w : World) :
  Wf w -> tasks w !! tid = Some t0 -> exec_of (pc t0) = Some p ->
  Wf (reject tid t p e w).
Proof.
  intros Hw Ht He. unfold reject.
  change (Wf (emit (EvReject p e) (set_task tid (at_pc t ExEnd) (settle p (Rejected e) w)))).
  apply Wf_emit; [| reflexivity].
  apply (Wf_settle tid t0 _ p); try assumption; reflexivity.
Qed.

Lemma Wf_catch (tid : nat) (t0 t : Task) (c : Connection) (p : nat) (e : Exn)
    (w : World) :
  Wf w -> tasks w !! tid = Some t0 -> exec_of (pc t0) = Some p ->
  Wf (catch tid t c p e w).
Proof.
  intros Hw Ht He. unfold catch.
  destruct (audited (args t)).
  - apply (Wf_set_task_same tid t0); [apply Wf_unregister, Hw | exact Ht | | discriminate].
    simpl. congruence.
  - apply (Wf_reject tid t0); [apply Wf_unregister, Hw | exact Ht | exact He].
Qed.

Lemma Wf_issue_update (tid : nat) (t0 t : Task) (c : Connection) (p : nat)
    (newCredentials : AuthCredentials) (w : World) :
  Wf w -> tasks w !! tid = Some t0 -> exec_of (pc t0) = Some p ->
  Wf (issue_update tid t c p newCredentials w).
Proof.
  intros Hw Ht He. unfold issue_update.
  apply (Wf_set_task_same tid t0); try assumption; [simpl; congruence | discriminate].
Qed.

Ltac wf_side :=
  try assumption; try discriminate;
  try (simpl; match goal with E : pc _ = _ |- _ => rewrite E end; reflexivity);
  try reflexivity.

Lemma Wf_resume (tid : nat) (t : Task) (r : Resp) (now : Z) (w w' : World) :
  Wf w -> tasks w !! tid = Some t -> resume tid t r now w = Some w' -> Wf w'.
Proof.
  intros Hw Ht.
  assert (Haw : forall p, awaited_of (pc t) = Some p -> (p < length (promises w))%nat).
  { destruct Hw as [_ _ Ha _ _]. exact (Forall_lookup_1 _ _ _ _ Ha Ht). }
  unfold resume.
  destruct (pc t) eqn:Epc; destruct r; try discriminate;
    try (destruct (conn t) as [connection |] eqn:Ec; simpl; [| discriminate]).
  - (* AtGetConnection *)
    destruct (getConnection _ _ _ _) as [c | e].
    + destruct (cred_type _); intros [= <-];
        try (apply (Wf_finish tid t); wf_side; fail).
      apply (Wf_set_task_same tid t); wf_side.
    + intros [= <-]. apply (Wf_finish tid t); wf_side.
  - (* AtEnter *)
    intros [= <-]. apply (Wf_enter tid t); wf_side.
  - (* AtIntrospect, answered *)
    intros [= <-]. apply (Wf_decide tid t); wf_side.
  - intros [= <-]. apply (Wf_finish tid t); wf_side.
  - (* AtLogAction *)
    intros [= <-]. apply (Wf_set_task_same tid t); wf_side.
  - intros [= <-]. apply (Wf_finish tid t); wf_side.
  - (* AtLogMessage *)
    intros [= <-]. apply (Wf_register tid t); wf_side.
    apply Haw. reflexivity.
  - intros [= <-]. apply (Wf_finish tid t); wf_side.
  - (* AtPromise *)
    destruct (promises w !! p) as [[| c | e] |]; try discriminate;
      intros [= <-]; apply (Wf_finish tid t); wf_side.
  - (* ExRefreshToken *)
    destruct (negb _); intros [= <-];
      [apply (Wf_catch tid t _ _ p) | apply (Wf_issue_update tid t _ _ p)]; wf_side.
  - intros [= <-]. apply (Wf_catch tid t _ _ p); wf_side.
  - (* ExFreshCredentials *)
    intros [= <-]. apply (Wf_issue_update tid t _ _ p); wf_side.
  - intros [= <-]. apply (Wf_catch tid t _ _ p); wf_side.
  - (* ExUpdate *)
    intros [= <-]. apply (Wf_set_task_same tid t); wf_side.
    apply Wf_emit; [apply Wf_set_db, Hw | reflexivity].
  - intros [= <-]. apply (Wf_catch tid t _ _ p); wf_side.
  - (* ExUpdated *)
    intros [= <-].
    change (Wf (emit (EvResolve p newCredentials)
                  (set_task tid (at_pc t ExEnd)
                     (settle p (Resolved newCredentials) (unregister p connection w))))).
    apply Wf_emit; [| reflexivity].
    apply (Wf_settle tid t _ p); wf_side. apply Wf_unregister, Hw.
  - (* ExCatchLogAction *)
    intros [= <-]. apply (Wf_set_task_same tid t); wf_side.
  - intros [= <-]. apply (Wf_set_task_drop tid t _ p); wf_side.
  - (* ExCatchLogMessage *)
    intros [= <-]. apply (Wf_reject tid t _ p); wf_side.
  - intros [= <-]. apply (Wf_set_task_drop tid t _ p); wf_side.
Qed.

Lemma Wf_init (d : Db) : Wf (init_world d).
Proof. split; simpl; try constructor; reflexivity. Qed.

Lemma Wf_step (w w' : World) (a : Action) : Wf w -> step w a = Some w' -> Wf w'.
Proof.
  intros Hw. destruct a as [a cid pck env | a c | tid r now]; simpl.
  - intros [= <-]. destruct Hw as [Ho Hr Ha Hp Hd]. split; try assumption; simpl.
    + apply Forall_app. split; [assumption | repeat constructor; discriminate].
    + unfold executors in *. simpl. rewrite omap_app, app_nil_r. exact Hp.
    + unfold executors in *. simpl. rewrite omap_app, app_nil_r. exact Hd.
  - intros [= <-]. destruct Hw as [Ho Hr Ha Hp Hd]. split; try assumption; simpl.
    + apply Forall_app. split; [assumption | repeat constructor; discriminate].
    + unfold executors in *. simpl. rewrite omap_app, app_nil_r. exact Hp.
    + unfold executors in *. simpl. rewrite omap_app, app_nil_r. exact Hd.
  - destruct (tasks w !! tid) as [t |] eqn:Et; [| discriminate]. simpl.
    apply Wf_resume; assumption.
Qed.

Lemma reachable_Wf (d : Db) (w : World) : reachable d w -> Wf w.
Proof.
  induction 1 as [| w a w' _ IH Hs]; [apply Wf_init | exact (Wf_step _ _ _ IH Hs)].
Qed.

End WfFacts.

Ltac split_matches :=
  repeat match goal with
         | |- context [match ?x with _ => _ end] => destruct x eqn:?
         | |- context [if ?x then _ else _] => destruct x eqn:?
         end.

Section SettleOnce.
Context `{Collaborators}.

(** What one segment does to the table of promises and to the table. *)
Lemma resume_promises (tid : nat) (t : Task) (r : Resp) (now : Z) (w w' : World) :
  resume tid t r now w = Some w' ->
  promises w' = promises w
  \/ promises w' = promises w ++ [Pending]
  \/ exists p s, exec_of (pc t) = Some p /\ promises w' = <[p := s]> (promises w).
Proof.
  unfold resume.
  destruct (pc t) eqn:Epc; destruct r; try discriminate;
    try (destruct (conn t) as [connection |] eqn:Ec; simpl; [| discriminate]);
    unfold enter, decide, catch, reject, register, finish, issue_update, unregister;
    split_matches; try discriminate; intros [= <-]; simpl;
    first [ left; reflexivity
          | right; left; reflexivity
          | right; right; eexists _, _; split; reflexivity ].
Qed.

Lemma resume_db (tid : nat) (t : Task) (r : Resp) (now : Z) (w w' : World) :
  resume tid t r now w = Some w' ->
  db w' = db w \/ exists c, db w' = updateConnection c (db w).
Proof.
  unfold resume.
  destruct (pc t) eqn:Epc; destruct r; try discriminate;
    try (destruct (conn t) as [connection |] eqn:Ec; simpl; [| discriminate]);
    unfold enter, decide, catch, reject, register, finish, issue_update, unregister;
    split_matches; try discriminate; intros [= <-]; simpl;
    first [ left; reflexivity | right; eexists; reflexivity ].
Qed.

Lemma step_keeps_settled (w w' : World) (a : Action) (p : nat) (s : Settled) :
  Wf w -> step w a = Some w' ->
  promises w !! p = Some s -> s ≠ Pending -> promises w' !! p = Some s.
Proof.
  intros Hw Hs Hp Hne. destruct a as [a cid pck env | a c | tid r now]; simpl in Hs.
  - injection Hs as <-. exact Hp.
  - injection Hs as <-. exact Hp.
  - destruct (tasks w !! tid) as [t |] eqn:Et; [| discriminate]. simpl in Hs.
    destruct (resume_promises _ _ _ _ _ _ Hs) as [-> | [-> | (q & s' & He & ->)]].
    + exact Hp.
    + rewrite lookup_app_l; [exact Hp | eapply lookup_lt_Some; exact Hp].
    + assert (Hq : promises w !! q = Some Pending).
      { destruct Hw as [_ _ _ Hpend _]. rewrite Forall_forall in Hpend.
        apply Hpend. unfold executors. apply list_elem_of_omap.
        exists t. split; [| exact He]. eapply list_elem_of_lookup_2. exact Et. }
      rewrite list_lookup_insert_ne; [exact Hp |]. intros ->. congruence.
Qed.

(** X14.  In every reachable state the number of refresh requests made
    equals the number of promises created, and every entry of the registry
    holds a promise that exists. *)
Theorem one_request_per_promise (d : Db) (w : World) :
  reachable d w ->
  outbound_calls w = length (promises w)
  /\ forall r, r ∈ runningCredentialsRefreshes w ->
               exists s, promises w !! r_promise r = Some s.
Proof.
  intros Hr. destruct (reachable_Wf _ _ Hr) as [Ho Hreg _ _ _].
  split; [exact Ho |]. intros r Hin. rewrite Forall_forall in Hreg.
  apply lookup_lt_is_Some_2, Hreg, Hin.
Qed.

(** X15.  A promise is settled once: from a reachable state, whatever the
    schedule that follows, a promise that is resolved or rejected keeps its
    outcome, so all the callers that take it are handed the same
    credentials or the same error. *)
Theorem settled_promise_is_final (d : Db) (w w' : World) (schedule : list Action)
    (p : nat) (s : Settled) :
  reachable d w -> run w schedule = Some w' ->
  promises w !! p = Some s -> s ≠ Pending ->
  promises w' !! p = Some s.
Proof.
  intros Hr Hrun Hp Hne. apply reachable_Wf in Hr.
  revert w Hr Hrun Hp. induction schedule as [| a schedule IH]; intros w Hw Hrun Hp.
  - simpl in Hrun. injection Hrun as <-. exact Hp.
  - simpl in Hrun. destruct (step w a) as [w1 |] eqn:Es; [| discriminate].
    simpl in Hrun. apply (IH w1); [exact (Wf_step _ _ _ Hw Es) | exact Hrun |].
    exact (step_keeps_settled _ _ _ _ _ Hw Es Hp Hne).
Qed.

End SettleOnce.

Lemma update_triples (connection : Connection) (d : Db) :
  triple <$> rows (updateConnection connection d) = triple <$> rows d.
Proof.
  unfold updateConnection, encryptConnection. simpl.
  apply (triples_after_merge _ _ _ (fun _ => connection)).
  intros _. apply row_matches_triple. reflexivity.
Qed.

Section RefreshAndTable.
Context `{Collaborators}.

(** X16.  The refresh path writes in place: in every state reachable from a
    table, the table has the same triples in the same order and the same
    next serial id as at the start; a refresh never adds a row, removes one
    or moves one to another environment. *)
Theorem refresh_keeps_rows (d : Db) (w : World) :
  reachable d w ->
  triple <$> rows (db w) = triple <$> rows d /\ next_id (db w) = next_id d.
Proof.
  induction 1 as [| w a w' _ [IHt IHn] Hs]; [split; reflexivity |].
  destruct a as [a cid pck env | a c | tid r now]; simpl in Hs.
  - injection Hs as <-. split; assumption.
  - injection Hs as <-. split; assumption.
  - destruct (tasks w !! tid) as [t |] eqn:Et; [| discriminate]. simpl in Hs.
    destruct (resume_db _ _ _ _ _ _ Hs) as [-> | [c ->]]; [split; assumption |].
    rewrite update_triples. split; assumption.
Qed.

End RefreshAndTable.

(** ** Deduplication without awaits *)

Lemma find_running_some (cid pck : string) (l : list CredentialsRefresh)
    (x : CredentialsRefresh) :
  find_running cid pck l (Some x) ≠ None.
Proof.
  revert x. induction l as [| y l IH]; intros x; simpl; [discriminate |].
  destruct (same_key cid pck y); apply IH.
Qed.

Lemma find_running_push_kept (cid pck : string) (l : list CredentialsRefresh)
    (entry : CredentialsRefresh) :
  find_running cid pck l None ≠ None ->
  find_running cid pck (l ++ [entry]) None ≠ None.
Proof.
  intros Hl. rewrite find_running_app.
  destruct (find_running cid pck l None); [apply find_running_some | congruence].
Qed.

Lemma find_running_push_own (cid pck : string) (l : list CredentialsRefresh) (p : nat) :
  find_running cid pck
    (l ++ [{| r_connectionId := cid; r_providerConfigKey := pck; r_promise := p |}]) None
  ≠ None.
Proof.
  rewrite find_running_app. simpl. unfold same_key. simpl.
  rewrite !String.eqb_refl. discriminate.
Qed.

Lemma find_running_remove_other (cid pck cid' pck' : string)
    (l : list CredentialsRefresh) (acc : option CredentialsRefresh) :
  (cid', pck') ≠ (cid, pck) ->
  find_running cid' pck' (remove_key cid pck l) acc = find_running cid' pck' l acc.
Proof.
  intros Hne. revert acc. unfold remove_key.
  induction l as [| x l IH]; intros acc; [reflexivity |].
  destruct (same_key cid pck x) eqn:E.
  - rewrite filter_cons_False by congruence. simpl.
    assert (E' : same_key cid' pck' x = false).
    { destruct (same_key cid' pck' x) eqn:E'; [| reflexivity].
      unfold same_key in E, E'. apply andb_true_iff in E as [E1 E2].
      apply andb_true_iff in E' as [E1' E2'].
      apply String.eqb_eq in E1, E2, E1', E2'. congruence. }
    rewrite E'. apply IH.
  - rewrite filter_cons_True by assumption. simpl. apply IH.
Qed.

Section DedupInvariant.
Context `{Collaborators}.

Lemma quiet_at (t : Task) (l : Pc) :
  quiet t ->
  match l with
  | AtIntrospect | AtLogAction _ | AtLogMessage _
  | ExCatchLogAction _ _ | ExCatchLogMessage _ _ => False
  | _ => True
  end ->
  quiet (at_pc t l).
Proof. intros [Ha _] Hl. split; [exact Ha | exact Hl]. Qed.

Lemma quiet_args (t : Task) :
  quiet t ->
  audited (args t) = false
  /\ (instantRefresh (args t) = false ->
      shouldIntrospectToken (provider (providerConfig (args t))) = false).
Proof.
  intros [Ha _]. unfold atomic_call in Ha.
  apply andb_true_iff in Ha as [Hn Hi]. apply negb_true_iff in Hn.
  split; [exact Hn |]. intros Hf. rewrite Hf in Hi. simpl in Hi.
  apply negb_true_iff in Hi. exact Hi.
Qed.

(** A task moves on and keeps its key, or has none before and after. *)
Lemma Dedup_change (tid : nat) (t0 t' : Task) (w w' : World) :
  Dedup w ->
  runningCredentialsRefreshes w' = runningCredentialsRefreshes w ->
  tasks w' = <[tid := t']> (tasks w) ->
  tasks w !! tid = Some t0 -> active_key t' = active_key t0 -> quiet t' ->
  Dedup w'.
Proof.
  intros [Hq Hd Hr] Er Et Ht Hk Hq'. split.
  - rewrite Et. apply Forall_insert; assumption.
  - unfold active_keys. rewrite Et, (omap_insert_same _ _ _ t0 t') by assumption.
    exact Hd.
  - unfold active_keys. rewrite Et, (omap_insert_same _ _ _ t0 t') by assumption.
    rewrite Er. exact Hr.
Qed.

Lemma Dedup_spawn (t : Task) (w w' : World) :
  Dedup w ->
  runningCredentialsRefreshes w' = runningCredentialsRefreshes w ->
  tasks w' = tasks w ++ [t] -> active_key t = None -> quiet t ->
  Dedup w'.
Proof.
  intros [Hq Hd Hr] Er Et Hk Hq'. split.
  - rewrite Et. apply Forall_app. split; [assumption | apply Forall_singleton; assumption].
  - unfold active_keys. rewrite Et, omap_app. simpl. rewrite Hk, app_nil_r. exact Hd.
  - unfold active_keys. rewrite Et, omap_app. simpl. rewrite Hk, app_nil_r, Er. exact Hr.
Qed.

(** A refresh starts and is registered in the same segment. *)
Lemma Dedup_start (tid : nat) (t0 t' ex : Task) (cid pck : string) (p : nat)
    (w w' : World) :
  Dedup w ->
  runningCredentialsRefreshes w'
  = runningCredentialsRefreshes w
    ++ [{| r_connectionId := cid; r_providerConfigKey := pck; r_promise := p |}] ->
  tasks w' = <[tid := t']> (tasks w ++ [ex]) ->
  tasks w !! tid = Some t0 -> active_key t0 = None -> active_key t' = None ->
  quiet t' -> quiet ex -> active_key ex = Some (cid, pck) ->
  find_running cid pck (runningCredentialsRefreshes w) None = None ->
  Dedup w'.
Proof.
  intros [Hq Hd Hr] Er Et Ht Hk0 Hk' Hq' Hqe Hke Hfree.
  assert (Ht' : (tasks w ++ [ex]) !! tid = Some t0).
  { rewrite lookup_app_l; [exact Ht | eapply lookup_lt_Some; exact Ht]. }
  assert (Hkeys : omap active_key (<[tid := t']> (tasks w ++ [ex]))
                  = active_keys w ++ [(cid, pck)]).
  { rewrite (omap_insert_same _ _ _ t0 t') by (assumption || congruence).
    rewrite omap_app. simpl. rewrite Hke. reflexivity. }
  split.
  - rewrite Et. apply Forall_insert; [| assumption].
    apply Forall_app. split; [assumption | apply Forall_singleton; assumption].
  - unfold active_keys at 1. rewrite Et, Hkeys.
    apply NoDup_app. split; [exact Hd |]. split; [| apply NoDup_singleton].
    intros k Hk Hk2. apply list_elem_of_singleton in Hk2. subst k.
    rewrite Forall_forall in Hr. apply (Hr _ Hk). exact Hfree.
  - unfold active_keys at 1. rewrite Et, Hkeys, Er.
    apply Forall_app. split.
    + eapply Forall_impl; [exact Hr |]. intros k Hk. simpl in *.
      apply find_running_push_kept. exact Hk.
    + repeat constructor. simpl. apply find_running_push_own.
Qed.

(** An executor filters the registry for its key and ends. *)
Lemma Dedup_end (tid : nat) (t0 t' : Task) (cid pck : string) (w w' : World) :
  Dedup w ->
  runningCredentialsRefreshes w' = remove_key cid pck (runningCredentialsRefreshes w) ->
  tasks w' = <[tid := t']> (tasks w) ->
  tasks w !! tid = Some t0 -> active_key t0 = Some (cid, pck) -> active_key t' = None ->
  quiet t' ->
  Dedup w'.
Proof.
  intros [Hq Hd Hr] Er Et Ht Hk0 Hk' Hq'.
  destruct (omap_insert_drop active_key (tasks w) tid t0 t' (cid, pck) Ht Hk0 Hk' Hd)
    as (Hnd & Hnot & Hsub).
  split.
  - rewrite Et. apply Forall_insert; assumption.
  - unfold active_keys. rewrite Et. exact Hnd.
  - unfold active_keys. rewrite Et, Er. apply Forall_forall. intros [cid' pck'] Hk.
    simpl. rewrite find_running_remove_other.
    + rewrite Forall_forall in Hr. apply (Hr (cid', pck')), Hsub, Hk.
    + intros E. rewrite E in Hk. exact (Hnot Hk).
Qed.

Lemma Dedup_finish (tid : nat) (t0 t : Task) (r : Outcome Answer) (w : World) :
  Dedup w -> tasks w !! tid = Some t0 -> active_key t0 = None ->
  atomic_call (args t) = true ->
  Dedup (finish tid t r w).
Proof.
  intros Hw Ht Hk Ha.
  apply (Dedup_change tid t0 (at_pc t (AtEnd r)) w);
    [exact Hw | reflexivity | reflexivity | exact Ht | | ].
  - rewrite Hk. reflexivity.
  - split; [exact Ha | exact I].
Qed.

Lemma Dedup_decide (tid : nat) (t : Task) (connection : Connection) (refresh : bool)
    (now : Z) (w : World) :
  Dedup w -> tasks w !! tid = Some t -> quiet t -> active_key t = None ->
  conn t = Some connection ->
  find_running (connection_id connection) (provider_config_key connection)
    (runningCredentialsRefreshes w) None = None ->
  Dedup (decide tid t connection refresh now w).
Proof.
  intros Hw Ht Hq Hk Hc Hfree. destruct (quiet_args t Hq) as [Hau _].
  unfold decide.
  destruct (needs_refresh _ _ _ _);
    [| apply (Dedup_finish tid t); try assumption; apply Hq].
  rewrite Hau. unfold register.
  apply (Dedup_start tid t (at_pc t (AtPromise (length (promises w))))
           (at_pc t (if shouldUseProviderClient (provider (providerConfig (args t)))
                     then ExRefreshToken (length (promises w))
                     else ExFreshCredentials (length (promises w))))
           (connection_id connection) (provider_config_key connection)
           (length (promises w)) w);
    [exact Hw | reflexivity | reflexivity | exact Ht | exact Hk | reflexivity
    | | | | exact Hfree].
  - apply quiet_at; [exact Hq | exact I].
  - apply quiet_at; [exact Hq |]. destruct (shouldUseProviderClient _); exact I.
  - unfold active_key. simpl. rewrite Hc.
    destruct (shouldUseProviderClient _); reflexivity.
Qed.

Lemma Dedup_enter (tid : nat) (t : Task) (connection : Connection) (now : Z) (w : World) :
  Dedup w -> tasks w !! tid = Some t -> quiet t -> active_key t = None ->
  conn t = Some connection ->
  Dedup (enter tid t connection now w).
Proof.
  intros Hw Ht Hq Hk Hc. destruct (quiet_args t Hq) as [_ Hin].
  unfold enter.
  destruct (find_running _ _ _ _) as [r |] eqn:Ef.
  - apply (Dedup_change tid t (at_pc t (AtPromise (r_promise r))) w);
      [exact Hw | reflexivity | reflexivity | exact Ht | | ].
    + rewrite Hk. reflexivity.
    + apply quiet_at; [exact Hq | exact I].
  - destruct (instantRefresh (args t)); [apply Dedup_decide; assumption |].
    rewrite (Hin eq_refl). apply Dedup_decide; assumption.
Qed.

Lemma Dedup_catch (tid : nat) (t : Task) (connection : Connection) (p : nat) (e : Exn)
    (w : World) :
  Dedup w -> tasks w !! tid = Some t -> quiet t ->
  active_key t = Some (connection_id connection, provider_config_key connection) ->
  Dedup (catch tid t connection p e w).
Proof.
  intros Hw Ht Hq Hk. destruct (quiet_args t Hq) as [Hau _].
  unfold catch. rewrite Hau. unfold reject, unregister.
  apply (Dedup_end tid t (at_pc t ExEnd) (connection_id connection)
           (provider_config_key connection) w);
    [exact Hw | reflexivity | reflexivity | exact Ht | exact Hk | reflexivity |].
  apply quiet_at; [exact Hq | exact I].
Qed.

Lemma Dedup_resume (tid : nat) (t : Task) (r : Resp) (now : Z) (w w' : World) :
  Dedup w -> tasks w !! tid = Some t -> resume tid t r now w = Some w' -> Dedup w'.
Proof.
  intros Hw Ht.
  assert (Hq : quiet t).
  { destruct Hw as [Hqs _ _]. exact (Forall_lookup_1 _ _ _ _ Hqs Ht). }
  pose proof Hq as [Ha Hpc].
  unfold resume.
  destruct (pc t) eqn:Epc; try (exfalso; exact Hpc); destruct r; try discriminate;
    try (destruct (conn t) as [connection |] eqn:Ec; simpl; [| discriminate]).
  - (* AtGetConnection *)
    assert (Hk : active_key t = None) by (unfold active_key; rewrite Epc; reflexivity).
    destruct (getConnection _ _ _ _) as [c | e].
    + destruct (cred_type _); intros [= <-];
        try (apply (Dedup_finish tid t); assumption).
      eapply (Dedup_change tid t);
        [exact Hw | reflexivity | reflexivity | exact Ht | | split; [exact Ha | exact I]].
      rewrite Hk. reflexivity.
    + intros [= <-]. apply (Dedup_finish tid t); assumption.
  - (* AtEnter *)
    intros [= <-]. apply Dedup_enter; try assumption.
    unfold active_key. rewrite Epc. reflexivity.
  - (* AtPromise *)
    assert (Hk : active_key t = None) by (unfold active_key; rewrite Epc; reflexivity).
    destruct (promises w !! p) as [[| c | e] |]; try discriminate;
      intros [= <-]; apply (Dedup_finish tid t); assumption.
  - (* ExRefreshToken *)
    assert (Hk : active_key t
                 = Some (connection_id connection, provider_config_key connection))
      by (unfold active_key; rewrite Epc, Ec; reflexivity).
    destruct (negb _); intros [= <-]; [apply Dedup_catch; assumption |].
    unfold issue_update.
    eapply (Dedup_change tid t);
      [exact Hw | reflexivity | reflexivity | exact Ht | | split; [exact Ha | exact I]].
    rewrite Hk. reflexivity.
  - intros [= <-]. apply Dedup_catch; try assumption.
    unfold active_key. rewrite Epc, Ec. reflexivity.
  - (* ExFreshCredentials *)
    intros [= <-]. unfold issue_update.
    eapply (Dedup_change tid t);
      [exact Hw | reflexivity | reflexivity | exact Ht | | split; [exact Ha | exact I]].
    unfold active_key. simpl. rewrite Epc, Ec. reflexivity.
  - intros [= <-]. apply Dedup_catch; try assumption.
    unfold active_key. rewrite Epc, Ec. reflexivity.
  - (* ExUpdate *)
    intros [= <-].
    eapply (Dedup_change tid t);
      [exact Hw | reflexivity | reflexivity | exact Ht | | split; [exact Ha | exact I]].
    unfold active_key. simpl. rewrite Epc, Ec. reflexivity.
  - intros [= <-]. apply Dedup_catch; try assumption.
    unfold active_key. rewrite Epc, Ec. reflexivity.
  - (* ExUpdated *)
    intros [= <-].
    apply (Dedup_end tid t (at_pc t ExEnd) (connection_id connection)
             (provider_config_key connection) w);
      [exact Hw | reflexivity | reflexivity | exact Ht | | reflexivity |].
    + unfold active_key. rewrite Epc, Ec. reflexivity.
    + split; [exact Ha | exact I].
Qed.

Lemma Dedup_init (d : Db) : Dedup (init_world d).
Proof. split; simpl; constructor. Qed.

Lemma Dedup_step (w w' : World) (a : Action) :
  Dedup w -> calm a = true -> step w a = Some w' -> Dedup w'.
Proof.
  intros Hw Hc. destruct a as [a cid pck env | a c | tid r now]; simpl in *.
  - intros [= <-]. eapply Dedup_spawn; try eassumption; try reflexivity.
    split; [exact Hc | exact I].
  - intros [= <-]. eapply Dedup_spawn; try eassumption; try reflexivity.
    split; [exact Hc | exact I].
  - destruct (tasks w !! tid) as [t |] eqn:Et; [| discriminate]. simpl.
    apply Dedup_resume; assumption.
Qed.

Lemma Dedup_run (schedule : list Action) (w w' : World) :
  Dedup w -> forallb calm schedule = true -> run w schedule = Some w' -> Dedup w'.
Proof.
  revert w. induction schedule as [| a schedule IH]; intros w Hw Hc; simpl.
  - intros [= <-]. exact Hw.
  - simpl in Hc. apply andb_true_iff in Hc as [Ha Hc].
    destruct (step w a) as [w1 |] eqn:Es; [| discriminate]. simpl.
    apply IH; [exact (Dedup_step _ _ _ Hw Ha Es) | exact Hc].
Qed.

End DedupInvariant.

Lemma awaits_provider_active (cid pck : string) (t : Task) :
  awaits_provider cid pck t = true -> active_key t = Some (cid, pck).
Proof.
  unfold awaits_provider, active_key.
  destruct (pc t); try discriminate; destruct (conn t) as [c |]; try discriminate;
    intros E; apply andb_true_iff in E as [E1 E2];
    apply String.eqb_eq in E1, E2; subst; reflexivity.
Qed.

Lemma filter_eq_NoDup_le {A : Type} `{EqDecision A} (k : A) (l : list A) :
  NoDup l -> (length (filter (fun x => x = k) l) <= 1)%nat.
Proof.
  induction l as [| x l IH]; [simpl; lia |].
  rewrite NoDup_cons. intros [Hx Hl].
  destruct (base.decide (x = k)) as [-> | Hne].
  - rewrite filter_cons_True by reflexivity.
    assert (Hnone : filter (fun x => x = k) l = []).
    { destruct (filter _ l) as [| y l'] eqn:Ef; [reflexivity |]. exfalso.
      assert (Hin : y ∈ filter (fun x => x = k) l) by (rewrite Ef; left).
      apply list_elem_of_filter in Hin as [-> Hin]. exact (Hx Hin). }
    rewrite Hnone. simpl. lia.
  - rewrite filter_cons_False by assumption. apply IH, Hl.
Qed.

Lemma in_flight_le_keys (cid pck : string) (l : list Task) :
  (length (filter (fun t => awaits_provider cid pck t = true) l)
   <= length (filter (fun k => k = (cid, pck)) (omap active_key l)))%nat.
Proof.
  induction l as [| t l IH]; [simpl; lia |].
  destruct (awaits_provider cid pck t) eqn:E.
  - rewrite filter_cons_True by assumption.
    change (omap active_key (t :: l))
      with (match active_key t with
            | Some k => k :: omap active_key l
            | None => omap active_key l
            end).
    rewrite (awaits_provider_active _ _ _ E).
    rewrite filter_cons_True by reflexivity. simpl. lia.
  - rewrite filter_cons_False by congruence.
    change (omap active_key (t :: l))
      with (match active_key t with
            | Some k => k :: omap active_key l
            | None => omap active_key l
            end).
    destruct (active_key t) as [k |]; [| exact IH].
    destruct (base.decide (k = (cid, pck))).
    + rewrite filter_cons_True by assumption. simpl. lia.
    + rewrite filter_cons_False by assumption. exact IH.
Qed.

Section DedupTheorem.
Context `{Collaborators}.

(** X17.  Deduplication holds for calls that do not await before they
    register.  When no call of a schedule carries an audit context for the
    token action, and each is forced or goes to a provider that needs no
    introspection, then in every state the schedule reaches at most one
    refresh request is out per (connectionId, providerConfigKey), and while
    one is out the registry holds an entry of that key, so a new call for
    the key joins it. *)
Theorem dedup_without_awaits (d : Db) (schedule : list Action) (w : World)
    (cid pck : string) :
  forallb calm schedule = true ->
  run (init_world d) schedule = Some w ->
  (in_flight cid pck w <= 1)%nat
  /\ ((1 <= in_flight cid pck w)%nat ->
      exists runningRefresh,
        find_running cid pck (runningCredentialsRefreshes w) None = Some runningRefresh).
Proof.
  intros Hc Hrun.
  destruct (Dedup_run schedule _ _ (Dedup_init d) Hc Hrun) as [_ Hd Hr].
  pose proof (in_flight_le_keys cid pck (tasks w)) as Hle.
  pose proof (filter_eq_NoDup_le (cid, pck) _ Hd) as Hk.
  fold (in_flight cid pck w) in Hle. fold (active_keys w) in Hle.
  split; [lia |]. intros Hone.
  assert (Hin : (cid, pck) ∈ active_keys w).
  { destruct (filter (fun k => k = (cid, pck)) (active_keys w)) as [| k l] eqn:Ef;
      [simpl in Hle; lia |].
    assert (Hk' : k ∈ filter (fun k => k = (cid, pck)) (active_keys w))
      by (rewrite Ef; left).
    apply list_elem_of_filter in Hk' as [-> Hk']. exact Hk'. }
  rewrite Forall_forall in Hr. specialize (Hr _ Hin). simpl in Hr.
  destruct (find_running cid pck (runningCredentialsRefreshes w) None) as [r |];
    [exists r; reflexivity | congruence].
Qed.

End DedupTheorem.

Lemma dedup_without_awaits_witness :
  exists w,
    @run sample_collaborators (init_world two_environments) join_running = Some w
    /\ (in_flight "c1" "slack" w <= 1)%nat.
Proof.
  eexists. split; [vm_compute; reflexivity |].
  refine (proj1 (@dedup_without_awaits sample_collaborators two_environments
                   join_running _ "c1" "slack" _ _)); vm_compute; reflexivity.
Defined.

(** * Further properties of the parser *)







Example decimal_samples :
  decimal 3600 = "3600" /\ decimal (-12) = "-12" /\ decimal 0 = "0".
Proof. repeat split. Qed.


Section ParserMore.
Context `{Collaborators}.


(** X19.  Whatever [parseRawCredentials] returns is of the mode that was
    asked, which then is OAuth2 or OAuth1; it keeps the raw object as it
    was given, takes its token fields from that object unchanged, and
    these are truthy: a returned credential never has an empty
    [access_token], [oauth_token] or [oauth_token_secret]. *)
Theorem parse_returns_what_was_given (now : Z) (rawCreds : RawCreds)
    (authMode : AuthModes) (c : AuthCredentials) :
  parseRawCredentials now rawCreds authMode = Returned c ->
  cred_type c = authMode
  /\ match c with
     | CredOAuth2 o =>
         raw o = rawCreds
         /\ access_token o = prop rawCreds "access_token"
         /\ truthy (access_token o) = true
         /\ refresh_token o = prop rawCreds "refresh_token"
     | CredOAuth1 o =>
         raw1 o = rawCreds
         /\ oauth_token o = prop rawCreds "oauth_token"
         /\ oauth_token_secret o = prop rawCreds "oauth_token_secret"
         /\ truthy (oauth_token o) = true
         /\ truthy (oauth_token_secret o) = true
     | _ => False
     end.
Proof.
  unfold parseRawCredentials. destruct authMode; try discriminate.
  - destruct (truthy (prop rawCreds "oauth_token")) eqn:E1; [| discriminate].
    destruct (truthy (prop rawCreds "oauth_token_secret")) eqn:E2; [| discriminate].
    simpl. intros [= <-]. simpl. auto 10.
  - destruct (truthy (prop rawCreds "access_token")) eqn:E; [| discriminate].
    simpl. intros [= <-]. simpl. auto 10.
Qed.

End ParserMore.

Section StaticCredentials.
Context `{Collaborators}.




(** X21.  [getConnectionCredentials] for keys that have no row ends with
    the [unknown_connection] error of [getConnection], naming the keys and
    the environment, and has no effect. *)
Theorem unknown_connection_has_no_effect (w : World) (tid : nat) (t : Task)
    (connectionId providerConfigKey : string) (environmentId : Z) (now : Z) :
  tasks w !! tid = Some t ->
  pc t = AtGetConnection connectionId providerConfigKey environmentId ->
  connectionId ≠ "" -> providerConfigKey ≠ "" -> environmentId ≠ 0 ->
  checkIfConnectionExists connectionId providerConfigKey environmentId (db w) = false ->
  exists w',
    step w (Resume tid RNone now) = Some w'
    /\ answer_of tid w'
       = Some (Thrown (unknown_connection connectionId providerConfigKey environmentId))
    /\ runningCredentialsRefreshes w' = runningCredentialsRefreshes w
    /\ promises w' = promises w
    /\ history w' = history w
    /\ db w' = db w.
Proof.
  intros Ht Hpc Hc Hp He Hex.
  pose proof (lookup_lt_Some _ _ _ Ht) as Hlt.
  assert (Hsel : select_where connectionId providerConfigKey environmentId (db w) = []).
  { unfold checkIfConnectionExists in Hex.
    apply negb_false_iff, bool_decide_eq_true in Hex. exact Hex. }
  simpl. rewrite Ht. simpl. unfold resume. rewrite Hpc.
  rewrite (getConnection_none _ _ _ _ Hc Hp He Hsel).
  eexists. split; [reflexivity |].
  split; [unfold answer_of, finish; rewrite lookup_set_task by assumption; reflexivity |].
  repeat split.
Qed.

End StaticCredentials.

(** * Properties of the Node client *)

Module NodeClientFacts.
Import NodeClient.

Lemma slice_last_slash (h : string) : slice_last (String.append h "/") = "/".
Proof.
  induction h as [| c h IH]; [reflexivity |].
  simpl. destruct (String.append h "/") eqn:E; [| exact IH].
  destruct h; discriminate.
Qed.

Lemma slice_but_last_slash (h : string) : slice_but_last (String.append h "/") = h.
Proof.
  induction h as [| c h IH]; [reflexivity |].
  simpl. destruct (String.append h "/") eqn:E; [destruct h; discriminate |].
  rewrite IH. reflexivity.
Qed.

Lemma or_else_nonempty (x : option string) (d : string) : d ≠ "" -> or_else x d ≠ "".
Proof.
  intros Hd. unfold or_else. destruct x as [s |]; [| exact Hd].
  destruct (String.eqb s "") eqn:E; [exact Hd | apply String.eqb_neq, E].
Qed.

(** X22.  The constructor of the client: an empty secret key is refused
    first, whatever the host; a host that ends in a slash loses that one
    slash; a missing or empty host is the production host; and a client
    that is built has a non-empty secret key and a server URL that the URL
    parser accepts. *)
Theorem constructor_host_and_key (valid_url : string -> bool) (config : NangoProps) :
  (secretKey config = "" ->
   constructor valid_url config
   = Error "You must specify a secret key (cf. documentation).")
  /\ (forall h, host config = Some (String.append h "/") -> secretKey config ≠ "" ->
        valid_url h = true ->
        exists c, constructor valid_url config = Ok c /\ serverUrl c = h)
  /\ (host config = None \/ host config = Some "" -> secretKey config ≠ "" ->
      valid_url prodHost = true ->
      exists c, constructor valid_url config = Ok c /\ serverUrl c = prodHost)
  /\ (forall c, constructor valid_url config = Ok c ->
        this_secretKey c = secretKey config /\ secretKey config ≠ ""
        /\ valid_url (serverUrl c) = true).
Proof.
  unfold constructor. split; [| split; [| split]].
  - intros ->. reflexivity.
  - intros h Hh Hk Hv. rewrite Hh.
    assert (Ho : or_else (Some (String.append h "/")) prodHost = String.append h "/").
    { unfold or_else. destruct (String.eqb (String.append h "/") "") eqn:E; [| reflexivity].
      apply String.eqb_eq in E. destruct h; discriminate. }
    rewrite Ho, slice_last_slash, slice_but_last_slash. simpl.
    apply String.eqb_neq in Hk. rewrite Hk, Hv. simpl. eexists. split; reflexivity.
  - intros Hh Hk Hv.
    assert (Ho : or_else (host config) prodHost = prodHost)
      by (destruct Hh as [-> | ->]; reflexivity).
    rewrite Ho. apply String.eqb_neq in Hk. rewrite Hk.
    change (String.eqb (slice_last prodHost) "/") with false. cbn iota.
    rewrite Hv. simpl. eexists. split; reflexivity.
  - intros c. destruct (String.eqb (secretKey config) "") eqn:Ek; [discriminate |].
    destruct (valid_url _) eqn:E; [| discriminate]. simpl. intros [= <-]. simpl.
    split; [reflexivity |]. split; [apply String.eqb_neq, Ek | exact E].
Qed.

Section RequestFacts.
Variable Data Serializer : Type.
Variable validateProxyConfiguration : ProxyConfiguration Data Serializer -> option string.

Abbreviation Config := (ProxyConfiguration Data Serializer).

#[local] Instance proxy_prefix_inj : Inj (=) (=) proxy_prefix.
Proof. intros x y E. unfold proxy_prefix in E. inversion E as [E']. exact E'. Qed.

Lemma customPrefixedHeaders_list (customHeaders : option (gmap string string)) :
  customPrefixedHeaders customHeaders
  = list_to_map ((fun kv => (proxy_prefix kv.1, HStr kv.2))
                   <$> map_to_list (default ∅ customHeaders)).
Proof.
  unfold customPrefixedHeaders. destruct customHeaders as [h |]; simpl.
  - case_bool_decide as Hs; [reflexivity |].
    assert (h = ∅) as -> by (apply map_size_empty_iff; lia).
    rewrite map_to_list_empty. reflexivity.
  - rewrite map_to_list_empty. reflexivity.
Qed.

Lemma prefixed_keys_NoDup (h : gmap string string) :
  NoDup (((fun kv : string * string => (proxy_prefix kv.1, HStr kv.2))
            <$> map_to_list h).*1).
Proof.
  rewrite <- list_fmap_compose.
  change (NoDup ((proxy_prefix ∘ fst) <$> map_to_list h)).
  rewrite list_fmap_compose. apply NoDup_fmap_2; [apply _ |].
  apply NoDup_fst_map_to_list.
Qed.

Lemma customPrefixedHeaders_prefixed (customHeaders : option (gmap string string))
    (k : string) :
  customPrefixedHeaders customHeaders !! proxy_prefix k
  = HStr <$> default ∅ customHeaders !! k.
Proof.
  rewrite customPrefixedHeaders_list. set (h := default ∅ customHeaders).
  destruct (h !! k) as [v |] eqn:E; simpl.
  - apply elem_of_list_to_map; [apply prefixed_keys_NoDup |].
    apply list_elem_of_fmap. exists (k, v). split; [reflexivity |].
    apply elem_of_map_to_list. exact E.
  - apply not_elem_of_list_to_map. intros Hin.
    apply list_elem_of_fmap in Hin as ([k' v'] & Hk & Hin).
    apply list_elem_of_fmap in Hin as ([k'' v''] & [= -> ->] & Hin).
    simpl in Hk. apply proxy_prefix_inj in Hk. subst k''.
    apply elem_of_map_to_list in Hin. congruence.
Qed.

Lemma customPrefixedHeaders_other (customHeaders : option (gmap string string))
    (name : string) :
  (forall k, name ≠ proxy_prefix k) ->
  customPrefixedHeaders customHeaders !! name = None.
Proof.
  intros Hn. rewrite customPrefixedHeaders_list.
  apply not_elem_of_list_to_map. intros Hin.
  apply list_elem_of_fmap in Hin as ([k' v'] & Hk & Hin).
  apply list_elem_of_fmap in Hin as ([k'' v''] & [= -> ->] & Hin).
  simpl in Hk. exact (Hn _ Hk).
Qed.

Ltac not_prefixed :=
  let k := fresh "k" in
  let E := fresh "E" in
  intros k E; unfold proxy_prefix in E; discriminate E.

Ltac prefixed_ne :=
  let E := fresh "E" in
  intros E; unfold proxy_prefix in E; discriminate E.

(** The options of a request are those of [proxy_options], whatever the
    verb. *)
Lemma proxy_request (this : Nango) (config : Config) (r : Request Data Serializer) :
  proxy Data Serializer validateProxyConfiguration this config = Ok r ->
  validateProxyConfiguration (with_ids Data Serializer this config) = None
  /\ options Data Serializer r
     = proxy_options Data Serializer this (with_ids Data Serializer this config)
  /\ url Data Serializer r
     = String.append (serverUrl this)
         (String.append "/proxy/" (endpoint Data Serializer config)).
Proof.
  unfold proxy.
  destruct (validateProxyConfiguration _) as [message |]; [discriminate |].
  repeat case_bool_decide; intros [= <-]; repeat split.
Qed.

Lemma proxy_headers_fixed (this : Nango) (config : Config) (name : string)
    (v : option HeaderValue) :
  name ≠ "Authorization" -> name ≠ "Retries" ->
  (forall k, name ≠ proxy_prefix k) ->
  (<["Connection-Id" := cast_string (cfg_connectionId Data Serializer config)]>
   (<["Provider-Config-Key" := cast_string (cfg_providerConfigKey Data Serializer config)]>
   (<["Base-Url-Override" := HStr (or_else (baseUrlOverride Data Serializer config) "")]>
   (<["Nango-Is-Sync" := HBool (this_isSync this)]>
   (<["Nango-Is-Dry-Run" := HBool (this_dryRun this)]>
   (<["Nango-Activity-Log-Id" :=
        match this_activityLogId this with
        | Some n => HNum n
        | None => HStr ""
        end]> (∅ : Headers))))))) !! name = v ->
  enrichHeaders this (proxy_headers Data Serializer this config) !! name = v.
Proof.
  intros Ha Hr Hp Hv. unfold enrichHeaders, proxy_headers.
  rewrite lookup_insert_ne by congruence.
  assert (Hu : forall rest : Headers,
            (customPrefixedHeaders (headers Data Serializer config) ∪ rest) !! name
            = rest !! name).
  { intros rest. apply lookup_union_r. apply customPrefixedHeaders_other. exact Hp. }
  destruct (retries Data Serializer config) as [n |]; [destruct (n =? 0) |];
    try rewrite lookup_insert_ne by congruence; rewrite Hu; exact Hv.
Qed.

(** X23.  Headers of a proxy request.  A caller's custom header [k] goes
    out as [Nango-Proxy-k] with its value, and only so: whatever the custom
    headers are called, [Authorization] is the bearer of the client's
    secret key and the headers [Connection-Id], [Provider-Config-Key],
    [Base-Url-Override], [Nango-Is-Sync] and [Nango-Is-Dry-Run] carry the
    values of the client and of the configuration. *)
Theorem proxy_headers_protected (this : Nango) (config : Config)
    (r : Request Data Serializer) :
  proxy Data Serializer validateProxyConfiguration this config = Ok r ->
  let h := req_headers Serializer (options Data Serializer r) in
  let config' := with_ids Data Serializer this config in
  h !! "Authorization" = Some (HStr (String.append "Bearer " (this_secretKey this)))
  /\ h !! "Connection-Id" = Some (cast_string (cfg_connectionId Data Serializer config'))
  /\ h !! "Provider-Config-Key"
     = Some (cast_string (cfg_providerConfigKey Data Serializer config'))
  /\ h !! "Base-Url-Override"
     = Some (HStr (or_else (baseUrlOverride Data Serializer config) ""))
  /\ h !! "Nango-Is-Sync" = Some (HBool (this_isSync this))
  /\ h !! "Nango-Is-Dry-Run" = Some (HBool (this_dryRun this))
  /\ (forall k, h !! proxy_prefix k
                = HStr <$> default ∅ (headers Data Serializer config) !! k).
Proof.
  intros Hr. cbn zeta. destruct (proxy_request _ _ _ Hr) as (_ & -> & _).
  cbn [proxy_options req_headers].
  split; [apply lookup_insert_eq |].
  repeat (split; [apply proxy_headers_fixed;
                  [discriminate | discriminate | not_prefixed | reflexivity] |]).
  intros k. unfold enrichHeaders, proxy_headers.
  rewrite lookup_insert_ne by prefixed_ne.
  assert (Hu : forall rest : Headers,
            rest !! proxy_prefix k = None ->
            (customPrefixedHeaders (headers Data Serializer (with_ids Data Serializer this config))
               ∪ rest) !! proxy_prefix k
            = HStr <$> default ∅ (headers Data Serializer config) !! k).
  { intros rest Hrest. rewrite lookup_union, Hrest, customPrefixedHeaders_prefixed.
    simpl. destruct (default ∅ (headers Data Serializer config) !! k); reflexivity. }
  assert (Hfixed : forall (a b c d e f : HeaderValue),
            (<["Connection-Id" := a]> (<["Provider-Config-Key" := b]>
             (<["Base-Url-Override" := c]> (<["Nango-Is-Sync" := d]>
             (<["Nango-Is-Dry-Run" := e]> (<["Nango-Activity-Log-Id" := f]>
             (∅ : Headers))))))) !! proxy_prefix k = None).
  { intros a b c d e f.
    rewrite !lookup_insert_ne by prefixed_ne.
    apply lookup_empty. }
  destruct (retries Data Serializer (with_ids Data Serializer this config)) as [n |];
    [destruct (n =? 0) |];
    try rewrite lookup_insert_ne by prefixed_ne;
    apply Hu, Hfixed.
Qed.


(** X25.  The shorthands fix the verb: [post], [patch], [delete] and [get]
    send a POST, a PATCH, a DELETE and a GET whatever method the
    configuration names; [post] and [patch] carry its [data], [delete] and
    [get] carry no body. *)
Theorem shorthand_verbs (this : Nango) (config : Config) (r : Request Data Serializer) :
  (post Data Serializer validateProxyConfiguration this config = Ok r ->
   verb Data Serializer r = POST /\ body Data Serializer r = data Data Serializer config)
  /\ (patch Data Serializer validateProxyConfiguration this config = Ok r ->
      verb Data Serializer r = PATCH
      /\ body Data Serializer r = data Data Serializer config)
  /\ (delete Data Serializer validateProxyConfiguration this config = Ok r ->
      verb Data Serializer r = DELETE /\ body Data Serializer r = None)
  /\ (get Data Serializer validateProxyConfiguration this config = Ok r ->
      verb Data Serializer r = GET /\ body Data Serializer r = None).
Proof.
  assert (Hpost : toUpperCase "POST" = "POST") by reflexivity.
  assert (Hpatch : toUpperCase "PATCH" = "PATCH") by reflexivity.
  assert (Hdelete : toUpperCase "DELETE" = "DELETE") by reflexivity.
  assert (Hget : toUpperCase "GET" = "GET") by reflexivity.
  unfold post, patch, delete, get, proxy.
  split; [| split; [| split]];
    destruct (validateProxyConfiguration _) as [message |]; try discriminate;
    cbn [with_ids with_method method fmap option_fmap option_map];
    rewrite ?Hpost, ?Hpatch, ?Hdelete, ?Hget;
    repeat case_bool_decide; try discriminate; try congruence;
    intros [= <-]; split; reflexivity.
Qed.

End RequestFacts.

End NodeClientFacts.

(** * Properties of the metadata migration *)

Module MigrationFacts.
Import Migration.

Section Updates.
(** [g record r]: what the update made for [record] writes into the row
    [r]. *)
Variable g : Row -> Row -> Row.
Hypothesis g_id : forall record r, id (g record r) = id r.

Lemma fold_updates_rows (recs table : list Row) :
  foldl (fun table record => update_where_id (id record) (g record) table) table recs
  = (fun r => foldl (step_row g) r recs) <$> table.
Proof.
  revert table. induction recs as [| record recs IH]; intros table; simpl.
  - symmetry. apply list_fmap_id.
  - rewrite IH. unfold update_where_id. rewrite <- list_fmap_compose.
    apply list_fmap_ext. intros i r _. reflexivity.
Qed.

Lemma fold_other_ids (recs : list Row) (acc : Row) :
  (forall x, x ∈ recs -> id x ≠ id acc) -> foldl (step_row g) acc recs = acc.
Proof.
  revert acc. induction recs as [| x recs IH]; intros acc Hne; [reflexivity |].
  simpl. unfold step_row at 2.
  assert (E : (id acc =? id x) = false).
  { apply Z.eqb_neq. intros E. apply (Hne x); [left | congruence]. }
  rewrite E. apply IH. intros y Hy. apply Hne. right. exact Hy.
Qed.

Lemma fold_own_id (recs : list Row) (r : Row) :
  r ∈ recs -> NoDup (id <$> recs) -> foldl (step_row g) r recs = g r r.
Proof.
  induction recs as [| x recs IH]; intros Hin Hnd; [inversion Hin |].
  rewrite fmap_cons, NoDup_cons in Hnd. destruct Hnd as [Hx Hnd].
  simpl. unfold step_row at 2.
  destruct (id r =? id x) eqn:E.
  - apply Z.eqb_eq in E.
    assert (x = r) as ->.
    { apply elem_of_cons in Hin as [-> | Hin]; [reflexivity |].
      exfalso. apply Hx. rewrite <- E. apply list_elem_of_fmap. eauto. }
    apply fold_other_ids. intros y Hy. rewrite g_id. intros Ey. apply Hx.
    rewrite <- Ey. apply list_elem_of_fmap. eauto.
  - apply elem_of_cons in Hin as [-> | Hin];
      [rewrite Z.eqb_refl in E; discriminate |].
    apply IH; assumption.
Qed.

Lemma same_id_same_row (rows : list Row) (x r : Row) :
  NoDup (id <$> rows) -> x ∈ rows -> r ∈ rows -> id x = id r -> x = r.
Proof.
  induction rows as [| y rows IH]; intros Hnd Hx Hr E; [inversion Hx |].
  rewrite fmap_cons, NoDup_cons in Hnd. destruct Hnd as [Hy Hnd].
  apply elem_of_cons in Hx as [-> | Hx];
    apply elem_of_cons in Hr as [-> | Hr]; try reflexivity.
  - exfalso. apply Hy. rewrite E. apply list_elem_of_fmap. eauto.
  - exfalso. apply Hy. rewrite <- E. apply list_elem_of_fmap. eauto.
  - apply IH; assumption.
Qed.

(** A loop of updates by id over the records selected by [P], on a table
    with distinct ids, rewrites exactly the selected rows, each from its
    own values. *)
Lemma loop_is_map (P : Row -> bool) (rows : list Row) :
  NoDup (id <$> rows) ->
  foldl (fun table record => update_where_id (id record) (g record) table) rows
    (filter (fun r => P r = true) rows)
  = (fun r => if P r then g r r else r) <$> rows.
Proof.
  intros Hnd. rewrite fold_updates_rows.
  apply Forall_fmap_ext, Forall_forall. intros r Hr.
  destruct (P r) eqn:E.
  - apply fold_own_id.
    + apply list_elem_of_filter. split; assumption.
    + apply NoDup_fmap_2_strong; [| apply NoDup_filter; eapply NoDup_fmap_1; exact Hnd].
      intros x y Hx Hy Exy. apply list_elem_of_filter in Hx as [_ Hx].
      apply list_elem_of_filter in Hy as [_ Hy].
      exact (same_id_same_row rows x y Hnd Hx Hy Exy).
  - apply fold_other_ids. intros x Hx Ex.
    apply list_elem_of_filter in Hx as [Hp Hx].
    assert (x = r) by (exact (same_id_same_row rows x r Hnd Hx Hr Ex)).
    subst x. congruence.
Qed.

End Updates.

(** On a table with distinct ids, [up] treats every row on its own and
    keeps the order and the ids. *)
Lemma up_row_by_row (rows : list Row) :
  NoDup (id <$> rows) -> up rows = consolidated <$> rows.
Proof.
  intros Hnd. unfold up, merge_metadata, move_field_mappings.
  rewrite (loop_is_map
             (fun record r =>
                {| id := id r; metadata := Some ∅;
                   connection_config :=
                     Some (spread (connection_config record) (metadata record));
                   field_mappings := field_mappings r |})
             (fun _ _ => eq_refl) (fun r => not_empty (metadata r)) rows Hnd).
  set (m1 := fun r : Row => if not_empty (metadata r) then _ else r).
  assert (Hnd' : NoDup (id <$> (m1 <$> rows))).
  { rewrite <- list_fmap_compose.
    rewrite (list_fmap_ext (id ∘ m1) id rows); [exact Hnd |].
    intros i r _. unfold m1. simpl. destruct (not_empty (metadata r)); reflexivity. }
  rewrite (loop_is_map
             (fun record r =>
                {| id := id r;
                   metadata :=
                     Some {[ "fieldMapping" :=
                               JsonObject (default ∅ (field_mappings record)) ]};
                   connection_config := connection_config r;
                   field_mappings := Some ∅ |})
             (fun _ _ => eq_refl) (fun r => not_empty (field_mappings r)) _ Hnd').
  rewrite <- !list_fmap_compose. apply list_fmap_ext. intros i r _.
  unfold m1, consolidated, dropColumn. simpl.
  destruct (not_empty (metadata r)) eqn:Em; simpl;
    destruct (not_empty (field_mappings r)) eqn:Ef; simpl; rewrite ?Em; reflexivity.
Qed.

Lemma up_lookup (rows : list Row) (i : nat) (r : Row) :
  NoDup (id <$> rows) -> rows !! i = Some r -> up rows !! i = Some (consolidated r).
Proof.
  intros Hnd Hi. rewrite (up_row_by_row rows Hnd), list_lookup_fmap, Hi. reflexivity.
Qed.

Lemma not_empty_false (c : Column) : not_empty c = false -> default ∅ c = ∅.
Proof.
  destruct c as [m |]; simpl; [| reflexivity].
  intros E. apply negb_false_iff, Nat.eqb_eq in E. apply map_size_empty_iff. exact E.
Qed.

(** X26.  The migration loses no setting.  On a table with distinct ids the
    row at each position keeps its id, and its new connection config holds
    every entry of the old metadata, and under every key the old metadata
    did not have what the old connection config had there (so nothing else
    is added to it). *)
Theorem migration_keeps_every_setting (rows : list Row) (i : nat) (r : Row) :
  NoDup (id <$> rows) ->
  rows !! i = Some r ->
  exists r',
    up rows !! i = Some r' /\
    a_id r' = id r /\
    (forall k v, default ∅ (metadata r) !! k = Some v ->
                 default ∅ (a_connection_config r') !! k = Some v) /\
    (forall k, default ∅ (metadata r) !! k = None ->
               default ∅ (a_connection_config r') !! k
               = default ∅ (connection_config r) !! k).
Proof.
  intros Hnd Hi. exists (consolidated r).
  split; [exact (up_lookup rows i r Hnd Hi) |]. split; [reflexivity |].
  unfold consolidated. cbn [a_connection_config].
  destruct (not_empty (metadata r)) eqn:Em.
  - unfold spread. cbn [default]. split.
    + intros k v Hk. apply lookup_union_Some_l. exact Hk.
    + intros k Hk. apply lookup_union_r. exact Hk.
  - rewrite (not_empty_false _ Em). split; [intros k v Hk | reflexivity].
    rewrite lookup_empty in Hk. discriminate.
Qed.

Lemma two_rows_NoDup : NoDup (id <$> two_rows).
Proof.
  apply NoDup_cons. split; [| apply NoDup_singleton].
  intros H. apply list_elem_of_singleton in H. discriminate.
Defined.

Lemma migration_keeps_every_setting_witness :
  exists r',
    up two_rows !! 0%nat = Some r' /\
    a_id r' = 1 /\
    (forall k v, ({[ "team" := JsonScalar (JStr "blue") ]} : gmap string Json) !! k = Some v ->
                 default ∅ (a_connection_config r') !! k = Some v) /\
    (forall k, ({[ "team" := JsonScalar (JStr "blue") ]} : gmap string Json) !! k = None ->
               default ∅ (a_connection_config r') !! k
               = ({[ "subdomain" := JsonScalar (JStr "acme") ]} : gmap string Json) !! k).
Proof.
  exact (migration_keeps_every_setting two_rows 0 _ two_rows_NoDup eq_refl).
Defined.

(** X27.  After the migration, on a table with distinct ids, the metadata
    of a row are exactly [{fieldMapping: field_mappings}] when its field
    mappings were a non-empty object, and have no entry otherwise: the
    metadata it had before are no longer there. *)
Theorem migration_moves_field_mappings (rows : list Row) (i : nat) (r : Row) :
  NoDup (id <$> rows) ->
  rows !! i = Some r ->
  exists r',
    up rows !! i = Some r' /\
    default ∅ (a_metadata r')
    = if not_empty (field_mappings r)
      then {[ "fieldMapping" := JsonObject (default ∅ (field_mappings r)) ]}
      else ∅.
Proof.
  intros Hnd Hi. exists (consolidated r).
  split; [exact (up_lookup rows i r Hnd Hi) |].
  unfold consolidated. cbn [a_metadata].
  destruct (not_empty (field_mappings r)); [reflexivity |].
  destruct (not_empty (metadata r)) eqn:Em; [reflexivity |].
  exact (not_empty_false _ Em).
Qed.

Lemma migration_moves_field_mappings_witness :
  exists r',
    up two_rows !! 1%nat = Some r' /\
    default ∅ (a_metadata r')
    = {[ "fieldMapping" := JsonObject {[ "name" := JsonScalar (JStr "full_name") ]} ]}.
Proof.
  exact (migration_moves_field_mappings two_rows 1 _ two_rows_NoDup eq_refl).
Defined.

End MigrationFacts.

(** * Closed instances of the properties *)

Lemma getConnection_scoped_witness :
  exists c,
    @getConnection sample_collaborators "c1" "slack" 2 two_environments = Returned c
    /\ environment_id c = 2.
Proof.
  eexists. split; [vm_compute; reflexivity |].
  refine (proj1 (proj2 (proj2 (@getConnection_scoped sample_collaborators "c1" "slack" 2
                                 two_environments _ _)))).
  vm_compute; reflexivity.
Defined.

Lemma upsert_then_get_witness :
  exists c,
    @getConnection sample_collaborators "c9" "slack" 1
      (upsertConnection "c9" "slack" "slack" (CredApiKey "k") None 1 10 None
         two_environments).1.2
    = Returned c
    /\ credentials c = CredApiKey "k".
Proof.
  destruct (@upsert_then_get sample_collaborators "c9" "slack" "slack" (CredApiKey "k")
              None 1 10 None two_environments) as (c & Hc & Hcred & _);
    [discriminate | discriminate | discriminate |].
  exists c. split; [exact Hc | exact Hcred].
Defined.

Lemma two_environments_unique : NoDup (triple <$> rows two_environments).
Proof.
  apply NoDup_cons. split; [| apply NoDup_singleton].
  intros Hin. apply list_elem_of_singleton in Hin. discriminate.
Defined.

Lemma upsert_keeps_unique_witness :
  length (select_where "c1" "slack" 1
            (upsertConnection "c1" "slack" "slack" (CredApiKey "k") None 1 10 None
               two_environments).1.2) = 1%nat.
Proof.
  exact (proj2 (upsert_keeps_unique "c1" "slack" "slack" (CredApiKey "k") None 1 10 None
                  two_environments two_environments_unique)).
Defined.

Lemma upsert_leaves_others_witness :
  select_where "c1" "slack" 2
    (upsertConnection "c1" "slack" "slack" (CredApiKey "k") None 1 10 None
       two_environments).1.2
  = select_where "c1" "slack" 2 two_environments.
Proof.
  apply upsert_leaves_others. discriminate.
Defined.


Lemma import_api_fresh_witness :
  result (importApiAuthConnection "c9" "slack" "slack" 1 10 (CredApiKey "k") true
            two_environments) = Returned [3].
Proof.
  pose proof (import_api_fresh "c9" "slack" "slack" 1 10 (CredApiKey "k") true
                two_environments) as Hw.
  cbn zeta in Hw.
  destruct Hw as (Hres & _); [vm_compute; reflexivity |]. exact Hres.
Defined.

Lemma update_then_get_witness :
  exists c,
    @getConnection sample_collaborators "c1" "slack" 1
      (updateConnection (slack_c1 1 1 (token "n1" "r1" (Some 4600000))) two_environments)
    = Returned c.
Proof.
  eexists.
  apply (@update_then_get sample_collaborators
           (slack_c1 1 1 (token "n1" "r1" (Some 4600000))) two_environments);
    first [discriminate | vm_compute; reflexivity].
Defined.

Lemma exists_iff_get_witness :
  exists c, @getConnection sample_collaborators "c1" "slack" 1 two_environments = Returned c.
Proof.
  refine (proj1 (proj1 (@exists_iff_get sample_collaborators "c1" "slack" 1
                          two_environments _ _ _)) _);
    first [discriminate | vm_compute; reflexivity].
Defined.

Lemma one_request_per_promise_witness :
  exists w,
    @run sample_collaborators (init_world two_environments) cross_environment = Some w
    /\ outbound_calls w = length (promises w).
Proof.
  eexists. split; [vm_compute; reflexivity |].
  refine (proj1 (@one_request_per_promise sample_collaborators two_environments _ _)).
  apply (run_reachable two_environments cross_environment (init_world two_environments));
    [apply reach_init | vm_compute; reflexivity].
Defined.

Lemma settled_promise_is_final_witness :
  exists w w',
    @run sample_collaborators (init_world two_environments) failed_refresh = Some w
    /\ @run sample_collaborators w later_call = Some w'
    /\ promises w !! 0%nat = Some (Rejected provider_down)
    /\ promises w' !! 0%nat = Some (Rejected provider_down).
Proof.
  eexists. eexists.
  split; [vm_compute; reflexivity |].
  split; [vm_compute; reflexivity |].
  split; [vm_compute; reflexivity |].
  eapply (@settled_promise_is_final sample_collaborators two_environments _ _ later_call
            0%nat (Rejected provider_down));
    [ apply (run_reachable two_environments failed_refresh (init_world two_environments));
        [apply reach_init | vm_compute; reflexivity]
    | vm_compute; reflexivity
    | vm_compute; reflexivity
    | discriminate ].
Defined.

Lemma refresh_keeps_rows_witness :
  exists w,
    @run sample_collaborators (init_world two_environments) cross_environment = Some w
    /\ next_id (db w) = 3.
Proof.
  eexists. split; [vm_compute; reflexivity |].
  refine (proj2 (@refresh_keeps_rows sample_collaborators two_environments _ _)).
  apply (run_reachable two_environments cross_environment (init_world two_environments));
    [apply reach_init | vm_compute; reflexivity].
Defined.


Lemma unknown_connection_has_no_effect_witness :
  exists w',
    @step sample_collaborators (fork (asking "c9" "slack" 1) (init_world two_environments))
      (Resume 0 RNone noon) = Some w'
    /\ answer_of 0 w'
       = Some (Thrown (@unknown_connection sample_collaborators "c9" "slack" 1))
    /\ db w' = two_environments.
Proof.
  destruct (@unknown_connection_has_no_effect sample_collaborators
              (fork (asking "c9" "slack" 1) (init_world two_environments)) 0
              (asking "c9" "slack" 1) "c9" "slack" 1 noon)
    as (w' & Hstep & Hans & _ & _ & _ & Hdb);
    first [discriminate | vm_compute; reflexivity | idtac].
  exists w'. split; [exact Hstep |]. split; [exact Hans | exact Hdb].
Defined.


Lemma parse_returns_what_was_given_witness :
  exists c,
    @parseRawCredentials sample_collaborators noon {[ "access_token" := JStr "a1" ]} OAuth2
    = Returned c
    /\ cred_type c = OAuth2.
Proof.
  eexists. split; [vm_compute; reflexivity |].
  refine (proj1 (@parse_returns_what_was_given sample_collaborators noon
                   {[ "access_token" := JStr "a1" ]} OAuth2 _ _)).
  vm_compute; reflexivity.
Defined.

Lemma proxy_headers_protected_witness :
  exists r,
    NodeClient.proxy string unit (fun _ => None) sample_client sample_request
    = NodeClient.Ok r
    /\ NodeClient.req_headers unit (NodeClient.options string unit r) !! "Authorization"
       = Some (NodeClient.HStr "Bearer sk").
Proof.
  eexists. split; [vm_compute; reflexivity |].
  refine (proj1 (NodeClientFacts.proxy_headers_protected string unit (fun _ => None)
                   sample_client sample_request _ _)).
  vm_compute; reflexivity.
Defined.

